(** * CategoricalHMM: the E-step and M-step of [ssm_jax.hmm.models.categorical_hmm]

    A shallow embedding of [src/ssm_jax/hmm/models/categorical_hmm.py].

    Conventions.
    - A JAX array is a pair of a shape and a row-major list of entries
      ([ndarray]).  Floating-point entries are idealised as exact rationals
      ([Q]); statements "up to numerical tolerance" are read as exact
      equalities of rationals ([==]).  Rounding is not modelled there.
      Where a statement depends on rounding (exact identity of results,
      strict positivity), the arithmetic of [m_step] is embedded a second
      time over IEEE 754 binary32 numbers, the default floating-point type
      of JAX ([Module Float32]).
    - A Python exception is a value of [exn]; a call that may raise returns a
      [result].
    - [m_step] mutates [self]; it is embedded in a state-and-exception monad
      over the model record, so that the state reached by a failing call
      is visible.
    - Code of the repository that is imported by the source file but is not
      part of it (the base class [BaseHMM], the smoother of
      [ssm_jax.hmm.inference]) and the JAX random-number generator are
      interfaces ([Class]es); every theorem holds for all their
      implementations that meet the stated contracts.  *)

From Stdlib Require Import String ZArith QArith Lia Permutation Bool Arith List.
From Stdlib Require Import Setoid Morphisms Lqa.
From Stdlib Require Import Floats.SpecFloat.
Import ListNotations.

Set Implicit Arguments.

(* ================================================================= *)
(** * Part I.  The embedding *)
(* ================================================================= *)

(** ** Exceptions *)

Inductive exn : Type :=
| AssertionError (msg : string)
| ValueError
| IndexError
| Raised (origin : string).

Inductive result (A : Type) : Type :=
| Ok (a : A)
| Err (e : exn).

Arguments Ok {A} a.
Arguments Err {A} e.

Definition is_ok {A} (r : result A) : bool :=
  match r with Ok _ => true | Err _ => false end.

Definition rbind {A B} (r : result A) (k : A -> result B) : result B :=
  match r with
  | Ok a => k a
  | Err e => Err e
  end.

Declare Scope result_scope.
Delimit Scope result_scope with result.
Notation "x <- c ;; k" := (rbind c (fun x => k))
  (at level 61, c at next level, right associativity) : result_scope.

Fixpoint mapM {A B} (f : A -> result B) (l : list A) : result (list B) :=
  match l with
  | [] => Ok []
  | x :: l' =>
      rbind (f x) (fun y => rbind (mapM f l') (fun ys => Ok (y :: ys)))
  end.

(** ** Arrays *)

Record ndarray (A : Type) : Type := Array { shape : list nat; data : list A }.

Definition ndim {A} (a : ndarray A) : nat := length (shape a).

(** Number of entries of an array of shape [s]. *)
Definition numel (s : list nat) : nat := fold_right Nat.mul 1%nat s.

(** Every JAX array holds exactly [numel shape] entries. *)
Definition well_formed {A} (a : ndarray A) : Prop :=
  length (data a) = numel (shape a).

Definition has_shape {A} (a : ndarray A) (s : list nat) : Prop :=
  shape a = s /\ well_formed a.

(** [a.shape[i]]; indexing a tuple out of range raises [IndexError]. *)
Definition shape_at {A} (a : ndarray A) (i : nat) : result nat :=
  match nth_error (shape a) i with
  | Some n => Ok n
  | None => Err IndexError
  end.

(** Row-major offset of a multi-index. *)
Fixpoint flat_index (s idx : list nat) : nat :=
  match s, idx with
  | _ :: s', i :: idx' => (i * numel s' + flat_index s' idx')%nat
  | _, _ => 0%nat
  end.

(** [a[i0, i1, ...]] for an in-range full multi-index. *)
Definition get (a : ndarray Q) (idx : list nat) : Q :=
  nth (flat_index (shape a) idx) (data a) 0%Q.

Definition getZ (a : ndarray Z) (idx : list nat) : Z :=
  nth (flat_index (shape a) idx) (data a) 0%Z.

(** The first [n] consecutive blocks of [k] entries. *)
Fixpoint chunks {A} (k n : nat) (l : list A) : list (list A) :=
  match n with
  | O => []
  | S n' => firstn k l :: chunks k n' (skipn k l)
  end.

Fixpoint zip_with {A B C} (f : A -> B -> C) (l1 : list A) (l2 : list B)
  : list C :=
  match l1, l2 with
  | x :: l1', y :: l2' => f x y :: zip_with f l1' l2'
  | _, _ => []
  end.

Definition sumQ (l : list Q) : Q := fold_right Qplus 0%Q l.

(** Entrywise sum of a list of blocks of [k] entries. *)
Definition sum_blocks (k : nat) (blocks : list (list Q)) : list Q :=
  fold_right (zip_with Qplus) (repeat 0%Q k) blocks.

(** [jnp.sum(a, axis=0)]: a rank-0 array has no axis 0.  The sum is exact
    here, so the order of accumulation plays no role; for binary32 numbers,
    where it does, see [Float32.jnp_sum_axis0]. *)
Definition jnp_sum_axis0 (a : ndarray Q) : result (ndarray Q) :=
  match shape a with
  | [] => Err ValueError
  | n :: s => Ok (Array s (sum_blocks (numel s) (chunks (numel s) n (data a))))
  end.

(** [c + a] for a Python float [c]: the scalar is broadcast. *)
Definition scalar_add (c : Q) (a : ndarray Q) : ndarray Q :=
  Array (shape a) (map (Qplus c) (data a)).

(** [a[0]]: the first slice along axis 0. *)
Definition getitem0 {A} (a : ndarray A) : result (ndarray A) :=
  match shape a with
  | [] => Err IndexError
  | n :: s =>
      if (n =? 0)%nat then Err IndexError
      else Ok (Array s (firstn (numel s) (data a)))
  end.

(** The [b]-th slice along axis 0 (the record of sequence [b] in a batch). *)
Definition slice0 {A} (a : ndarray A) (b : nat) : ndarray A :=
  let s := tl (shape a) in
  Array s (firstn (numel s) (skipn (b * numel s) (data a))).

(** [jax.nn.one_hot(x, num_classes)]: a new last axis of length
    [num_classes]; an index outside [0, num_classes) gives a zero row.  The
    indices are the entries of an array of 32-bit integers
    ([int32_values]); the truncation of wider integers, which happens when
    such an array is built, is not modelled. *)
Definition one_hot_row (num_classes : nat) (x : Z) : list Q :=
  map (fun i => if (x =? Z.of_nat i)%Z then 1%Q else 0%Q) (seq 0 num_classes).

Definition one_hot (x : ndarray Z) (num_classes : nat) : ndarray Q :=
  Array (shape x ++ [num_classes]) (flat_map (one_hot_row num_classes) (data x)).

(** Outer product of a vector with a flattened block. *)
Definition outer (u v : list Q) : list Q :=
  flat_map (fun x => map (Qmult x) v) u.

(** [jnp.einsum("tk, tdi->kdi", a, b)]: contraction over the shared
    leading axis [t]. *)
Definition einsum_tk_tdi (a b : ndarray Q) : result (ndarray Q) :=
  match shape a, shape b with
  | [T; K], [T'; D; C] =>
      if (T =? T')%nat then
        Ok (Array [K; D; C]
              (sum_blocks (K * (D * C))
                 (zip_with outer (chunks K T (data a))
                                 (chunks (D * C) T (data b)))))
      else Err ValueError
  | _, _ => Err ValueError
  end.

(** ** The Dirichlet distribution of [tensorflow_probability] *)

(** Modelled from the spec: [tfd.Dirichlet(...).mode()] is library code; the
    specification gives its closed form: for a concentration vector [alpha]
    over [K] outcomes with every [alpha_i > 1], the mode is
    [(alpha_i - 1) / (sum_j alpha_j - K)].  The closed form is applied to
    every vector along the last axis.  (Where some concentration is at most
    one the library reports an undefined mode; the statements below that
    speak about values assume non-negative statistics, which keeps every
    concentration above one.  The quotient is exact here; for its binary32
    value, with overflow and the undefined mode, see [Float32.mode_row].) *)
Definition mode_row (K : nat) (alpha : list Q) : list Q :=
  map (fun a => (a - 1) / (sumQ alpha - inject_Z (Z.of_nat K)))%Q alpha.

Record Dirichlet : Type := { concentration : ndarray Q }.

(** The constructor validates the static shape of its argument: it rejects
    a concentration of rank 0 and one whose last axis, the event axis, has
    fewer than two entries. *)
Definition tfd_Dirichlet (conc : ndarray Q) : result Dirichlet :=
  match shape conc with
  | [] => Err ValueError
  | _ :: _ =>
      if (last (shape conc) 0 <? 2)%nat then Err ValueError
      else Ok {| concentration := conc |}
  end.

Definition Dirichlet_mode (d : Dirichlet) : ndarray Q :=
  let a := concentration d in
  let K := last (shape a) 0%nat in
  Array (shape a)
    (concat (map (mode_row K)
               (chunks K (numel (removelast (shape a))) (data a)))).

(** ** Constrained parameters *)

Inductive Bijector : Type :=
| SoftmaxCentered
| Invert (b : Bijector).

(** Modelled from the spec: the class [Parameter] of [ssm_jax.abstractions]
    is a constrained value together with an invertible transform; the value
    can be read and replaced, and is not re-validated.  (Named [Param]: the
    source's name is a reserved word.) *)
Record Param : Type := { value : ndarray Q; bijector : Bijector }.

Definition set_value (p : Param) (v : ndarray Q) : Param :=
  {| value := v; bijector := bijector p |}.

(** ** Sufficient statistics *)

(** The dataclass is used both for the statistics (arrays) and for their
    event shapes (tuples), hence the type parameter. *)
Record CategoricalHMMSuffStats (A : Type) : Type := {
  marginal_loglik : A;
  initial_probs : A;
  trans_probs : A;
  sum_x : A
}.

(** [jax.tree_map] with a function that may raise. *)
Definition tree_map {A B} (f : A -> result B) (t : CategoricalHMMSuffStats A)
  : result (CategoricalHMMSuffStats B) :=
  (ml <- f (marginal_loglik t) ;;
   ip <- f (initial_probs t) ;;
   tp <- f (trans_probs t) ;;
   sx <- f (sum_x t) ;;
   Ok {| marginal_loglik := ml; initial_probs := ip;
         trans_probs := tp; sum_x := sx |})%result.

(** ** The model *)

Record CategoricalHMM : Type := {
  _initial_probs : Param;
  _transition_matrix : Param;
  _emission_probs : Param
}.

(** What the source inherits from [BaseHMM] ([ssm_jax.hmm.models.base]),
    which is not part of the source file: the superclass constructor, which
    yields the two parameters of the base state or raises, the properties
    [num_states] and [num_obs], and [_conditional_logliks]. *)
Class BaseHMM : Type := {
  BaseHMM_init : ndarray Q -> ndarray Q -> result (Param * Param);
  num_states : CategoricalHMM -> result nat;
  num_obs : CategoricalHMM -> result nat;
  _conditional_logliks : CategoricalHMM -> ndarray Z -> result (ndarray Q)
}.

(** What the source imports from [ssm_jax.hmm.inference]. *)
Class HMMInference : Type := {
  HMMPosterior : Type;
  posterior_marginal_loglik : HMMPosterior -> ndarray Q;
  posterior_smoothed_probs : HMMPosterior -> ndarray Q;
  hmm_smoother : ndarray Q -> ndarray Q -> ndarray Q -> result HMMPosterior;
  compute_transition_probs : ndarray Q -> HMMPosterior -> result (ndarray Q)
}.

(** What the source uses of [jax.random]. *)
Class JaxRandom : Type := {
  PRNGKey : Type;
  jr_split3 : PRNGKey -> PRNGKey * PRNGKey * PRNGKey;
  jr_dirichlet : PRNGKey -> ndarray Q -> list nat -> result (ndarray Q)
}.

Definition jnp_ones (n : nat) : ndarray Q := Array [n] (repeat 1%Q n).

(** ** Batches *)

(** Stacking arrays of a common shape along a new leading axis; the common
    shape is that of [proto]. *)
Definition stack (proto : ndarray Q) (outs : list (ndarray Q)) : ndarray Q :=
  Array (length outs :: shape proto) (concat (map (@data Q) outs)).

(** The slices along the leading axis of an array of shape [n :: s]. *)
Definition unstack {A} (n : nat) (s : list nat) (d : list A)
  : list (ndarray A) :=
  map (Array s) (chunks (numel s) n d).

(** A list of per-sequence statistics records as one batched record. *)
Definition stack_stats (proto : CategoricalHMMSuffStats (ndarray Q))
    (outs : list (CategoricalHMMSuffStats (ndarray Q)))
  : CategoricalHMMSuffStats (ndarray Q) :=
  {| marginal_loglik :=
       stack (marginal_loglik proto) (map (@marginal_loglik _) outs);
     initial_probs :=
       stack (initial_probs proto) (map (@initial_probs _) outs);
     trans_probs := stack (trans_probs proto) (map (@trans_probs _) outs);
     sum_x := stack (sum_x proto) (map (@sum_x _) outs) |}.

(** The record of sequence [b] in a batched record. *)
Definition slice_stats (t : CategoricalHMMSuffStats (ndarray Q)) (b : nat)
  : CategoricalHMMSuffStats (ndarray Q) :=
  {| marginal_loglik := slice0 (marginal_loglik t) b;
     initial_probs := slice0 (initial_probs t) b;
     trans_probs := slice0 (trans_probs t) b;
     sum_x := slice0 (sum_x t) b |}.

(** [jnp.add] of two arrays of the same shape, and the entrywise sum of two
    statistics records ([tree_map(jnp.add, s, t)]). *)
Definition jnp_add (a b : ndarray Q) : ndarray Q :=
  Array (shape a) (zip_with Qplus (data a) (data b)).

Definition add_stats (s t : CategoricalHMMSuffStats (ndarray Q))
  : CategoricalHMMSuffStats (ndarray Q) :=
  {| marginal_loglik := jnp_add (marginal_loglik s) (marginal_loglik t);
     initial_probs := jnp_add (initial_probs s) (initial_probs t);
     trans_probs := jnp_add (trans_probs s) (trans_probs t);
     sum_x := jnp_add (sum_x s) (sum_x t) |}.

(** The entrywise sum of a list of arrays of the shape of [proto], and of a
    list of statistics records. *)
Definition sum_arrays (proto : ndarray Q) (l : list (ndarray Q)) : ndarray Q :=
  Array (shape proto)
    (sum_blocks (numel (shape proto)) (map (@data Q) l)).

Definition sum_stats (proto : CategoricalHMMSuffStats (ndarray Q))
    (l : list (CategoricalHMMSuffStats (ndarray Q)))
  : CategoricalHMMSuffStats (ndarray Q) :=
  {| marginal_loglik :=
       sum_arrays (marginal_loglik proto) (map (@marginal_loglik _) l);
     initial_probs :=
       sum_arrays (initial_probs proto) (map (@initial_probs _) l);
     trans_probs := sum_arrays (trans_probs proto) (map (@trans_probs _) l);
     sum_x := sum_arrays (sum_x proto) (map (@sum_x _) l) |}.

(** An array, or a record, with the shapes of [proto]. *)
Definition array_like (proto a : ndarray Q) : Prop :=
  has_shape a (shape proto).

Definition record_like (proto t : CategoricalHMMSuffStats (ndarray Q)) : Prop :=
  array_like (marginal_loglik proto) (marginal_loglik t) /\
  array_like (initial_probs proto) (initial_probs t) /\
  array_like (trans_probs proto) (trans_probs t) /\
  array_like (sum_x proto) (sum_x t).

Section Model.

Context {base : BaseHMM} {inference : HMMInference} {random : JaxRandom}.

Local Open Scope result_scope.

(** [CategoricalHMM.__init__] *)
Definition CategoricalHMM_init
    (initial_probabilities transition_matrix emission_probs : ndarray Q)
  : result CategoricalHMM :=
  ps <- BaseHMM_init initial_probabilities transition_matrix ;;
  if (ndim emission_probs =? 3)%nat then
    Ok {| _initial_probs := fst ps;
          _transition_matrix := snd ps;
          _emission_probs :=
            {| value := emission_probs;
               bijector := Invert SoftmaxCentered |} |}
  else
    Err (AssertionError
           "emission_probs must be (num_states x num_emissions x num_classes)").

(** [CategoricalHMM.random_initialization] *)
Definition random_initialization
    (key : PRNGKey) (num_states num_emissions num_classes : nat)
  : result CategoricalHMM :=
  let '(key1, key2, key3) := jr_split3 key in
  initial_probs <- jr_dirichlet key1 (jnp_ones num_states) [] ;;
  transition_matrix <-
    jr_dirichlet key2 (jnp_ones num_states) [num_states] ;;
  emission_probs <-
    jr_dirichlet key3 (jnp_ones num_classes) [num_states; num_emissions] ;;
  CategoricalHMM_init initial_probs transition_matrix emission_probs.

Definition emission_probs (self : CategoricalHMM) : Param :=
  _emission_probs self.

Definition num_emissions (self : CategoricalHMM) : result nat :=
  shape_at (value (emission_probs self)) 1.

Definition num_classes (self : CategoricalHMM) : result nat :=
  shape_at (value (emission_probs self)) 2.

(** [CategoricalHMM.suff_stats_event_shape] *)
Definition suff_stats_event_shape (self : CategoricalHMM)
  : result (CategoricalHMMSuffStats (list nat)) :=
  k1 <- num_states self ;;
  k2 <- num_states self ;;
  k3 <- num_states self ;;
  k4 <- num_states self ;;
  o <- num_obs self ;;
  c <- num_classes self ;;
  Ok {| marginal_loglik := [];
        initial_probs := [k1];
        trans_probs := [k2; k3];
        sum_x := [k4; o; c] |}.

(** [_single_e_step], the local function of [e_step].  The inherited
    properties [initial_probs] and [transition_matrix] read the fields
    [_initial_probs] and [_transition_matrix] that [m_step] assigns. *)
Definition _single_e_step (self : CategoricalHMM) (emissions : ndarray Z)
  : result (CategoricalHMMSuffStats (ndarray Q)) :=
  ll <- _conditional_logliks self emissions ;;
  posterior <- hmm_smoother (value (_initial_probs self))
                            (value (_transition_matrix self)) ll ;;
  initial_probs <- getitem0 (posterior_smoothed_probs posterior) ;;
  trans_probs <- compute_transition_probs
                   (value (_transition_matrix self)) posterior ;;
  c <- num_classes self ;;
  sum_x <- einsum_tk_tdi (posterior_smoothed_probs posterior)
                         (one_hot emissions c) ;;
  Ok {| marginal_loglik := posterior_marginal_loglik posterior;
        initial_probs := initial_probs;
        trans_probs := trans_probs;
        sum_x := sum_x |}.

(** [jax.vmap] over axis 0, for a function from an array to a statistics
    record.  The function is traced once on an abstract argument of the
    per-example shape, which fixes the event shapes of the result; the
    entries of the result are those of the function on each slice. *)
Definition vmap (f : ndarray Z -> result (CategoricalHMMSuffStats (ndarray Q)))
    (xs : ndarray Z) : result (CategoricalHMMSuffStats (ndarray Q)) :=
  match shape xs with
  | [] => Err ValueError
  | B :: s =>
      proto <- f (Array s (repeat 0%Z (numel s))) ;;
      outs <- mapM f (unstack B s (data xs)) ;;
      Ok (stack_stats proto outs)
  end.

(** [CategoricalHMM.e_step] *)
Definition e_step (self : CategoricalHMM) (batch_emissions : ndarray Z)
  : result (CategoricalHMMSuffStats (ndarray Q)) :=
  vmap (_single_e_step self) batch_emissions.

End Model.

(** ** Mutation of [self]: a state-and-exception monad *)

Definition M (A : Type) : Type := CategoricalHMM -> CategoricalHMM * result A.

Definition mret {A} (a : A) : M A := fun self => (self, Ok a).

Definition mbind {A B} (c : M A) (k : A -> M B) : M B :=
  fun self =>
    match c self with
    | (self', Ok a) => k a self'
    | (self', Err e) => (self', Err e)
    end.

(** Evaluating an expression that does not touch [self]. *)
Definition eval {A} (r : result A) : M A := fun self => (self, r).

Declare Scope M_scope.
Delimit Scope M_scope with M.
Notation "x <- c ;; k" := (mbind c (fun x => k))
  (at level 61, c at next level, right associativity) : M_scope.
Notation "c ;; k" := (mbind c (fun _ => k))
  (at level 61, right associativity) : M_scope.

(** [self._initial_probs.value = v] and its two siblings. *)
Definition assign_initial_probs (v : ndarray Q) : M unit :=
  fun self =>
    ({| _initial_probs := set_value (_initial_probs self) v;
        _transition_matrix := _transition_matrix self;
        _emission_probs := _emission_probs self |}, Ok tt).

Definition assign_transition_matrix (v : ndarray Q) : M unit :=
  fun self =>
    ({| _initial_probs := _initial_probs self;
        _transition_matrix := set_value (_transition_matrix self) v;
        _emission_probs := _emission_probs self |}, Ok tt).

Definition assign_emission_probs (v : ndarray Q) : M unit :=
  fun self =>
    ({| _initial_probs := _initial_probs self;
        _transition_matrix := _transition_matrix self;
        _emission_probs := set_value (_emission_probs self) v |}, Ok tt).

(** [tfd.Dirichlet(c + a).mode()] *)
Definition posterior_mode (c : Q) (a : ndarray Q) : result (ndarray Q) :=
  (d <- tfd_Dirichlet (scalar_add c a) ;; Ok (Dirichlet_mode d))%result.

(** [CategoricalHMM.m_step].  [batch_emissions] and the keyword arguments
    are parameters of the method, as in the source. *)
Definition m_step {KW : Type} (batch_emissions : ndarray Z)
    (batch_posteriors : CategoricalHMMSuffStats (ndarray Q)) (kwargs : KW)
  : M unit :=
  (stats <- eval (tree_map jnp_sum_axis0 batch_posteriors) ;;
   v1 <- eval (posterior_mode 1.0001 (initial_probs stats)) ;;
   assign_initial_probs v1 ;;
   v2 <- eval (posterior_mode 1.0001 (trans_probs stats)) ;;
   assign_transition_matrix v2 ;;
   v3 <- eval (posterior_mode 1.1 (sum_x stats)) ;;
   assign_emission_probs v3)%M.

(** ** Shapes and contracts *)

(** The vectors along the last axis. *)
Definition rows {A} (a : ndarray A) : list (list A) :=
  chunks (last (shape a) 0%nat) (numel (removelast (shape a))) (data a).

(** Every entry is non-negative and every vector along the last axis sums
    to one. *)
Definition on_simplex (a : ndarray Q) : Prop :=
  Forall (fun x => 0 <= x)%Q (data a) /\
  Forall (fun r => sumQ r == 1)%Q (rows a).

(** A model over [K] states, [D] emission channels and [C] classes. *)
Definition model_dims (m : CategoricalHMM) (K D C : nat) : Prop :=
  has_shape (value (_initial_probs m)) [K] /\
  has_shape (value (_transition_matrix m)) [K; K] /\
  has_shape (value (_emission_probs m)) [K; D; C].

(** The contract of the base class: the constructor stores its two
    arguments and accepts an initial distribution and a row-stochastic
    matrix of matching dimensions; the dimension properties are read off the
    parameter shapes; the conditional log-likelihoods of a sequence of
    length [T] form a [T x K] array. *)
Class BaseHMM_contract (base : BaseHMM) : Prop := {
  BaseHMM_init_stores : forall ip tm ps,
    BaseHMM_init ip tm = Ok ps -> value (fst ps) = ip /\ value (snd ps) = tm;
  BaseHMM_init_accepts : forall ip tm K,
    has_shape ip [K] -> has_shape tm [K; K] ->
    on_simplex ip -> on_simplex tm ->
    is_ok (BaseHMM_init ip tm) = true;
  num_states_dims : forall m K D C,
    model_dims m K D C -> num_states m = Ok K;
  num_obs_dims : forall m K D C,
    model_dims m K D C -> num_obs m = Ok D;
  conditional_logliks_dims : forall m K D C x T,
    model_dims m K D C -> has_shape x [T; D] ->
    exists ll, _conditional_logliks m x = Ok ll /\ has_shape ll [T; K]
}.

(** The contract of the smoother: on a sequence of length [T] it returns
    [T x K] smoothed marginals and a scalar log-likelihood, and the summed
    transition posteriors have the shape of the transition matrix. *)
Class HMMInference_contract (inference : HMMInference) : Prop := {
  hmm_smoother_dims : forall ip tm ll K T,
    has_shape ip [K] -> has_shape tm [K; K] -> has_shape ll [T; K] ->
    exists p, hmm_smoother ip tm ll = Ok p /\
              has_shape (posterior_smoothed_probs p) [T; K] /\
              has_shape (posterior_marginal_loglik p) [];
  compute_transition_probs_dims : forall ip tm ll p K T,
    has_shape ip [K] -> has_shape tm [K; K] -> has_shape ll [T; K] ->
    hmm_smoother ip tm ll = Ok p ->
    exists tp, compute_transition_probs tm p = Ok tp /\ has_shape tp [K; K]
}.

(** The contract of [jax.random.dirichlet]: for a concentration vector over
    [n >= 1] outcomes and a batch shape [s], the sample has shape [s ++ [n]]
    and each of its vectors lies on the simplex. *)
Class JaxRandom_contract (random : JaxRandom) : Prop := {
  jr_dirichlet_simplex : forall key alpha n s,
    has_shape alpha [n] -> (0 < n)%nat ->
    exists a, jr_dirichlet key alpha s = Ok a /\
              has_shape a (s ++ [n]) /\ on_simplex a
}.

(** ** Implementations of the interfaces

    Simple implementations that meet the contracts; they provide concrete
    inputs on which the statements below are evaluated. *)

Module Instances.

Definition full (s : list nat) (v : Q) : ndarray Q :=
  Array s (repeat v (numel s)).

Definition param (a : ndarray Q) : Param :=
  {| value := a; bijector := Invert SoftmaxCentered |}.

(** Modelled from the spec: the base class holds the initial distribution
    and the transition matrix as parameters, and its dimension properties
    are views over the parameter shapes. *)
#[export] Instance base : BaseHMM := {|
  BaseHMM_init ip tm := Ok (param ip, param tm);
  num_states m := shape_at (value (_initial_probs m)) 0;
  num_obs m := shape_at (value (_emission_probs m)) 1;
  _conditional_logliks m x :=
    (T <- shape_at x 0 ;;
     K <- shape_at (value (_initial_probs m)) 0 ;;
     Ok (full [T; K] 0))%result
|}.

(** A smoother that ignores the evidence: every smoothed marginal is
    uniform. *)
#[export] Instance inference : HMMInference := {|
  HMMPosterior := ndarray Q * ndarray Q;
  posterior_marginal_loglik := fst;
  posterior_smoothed_probs := snd;
  hmm_smoother ip tm ll :=
    match shape ll with
    | [T; K] => Ok (full [] 0, full [T; K] (1 / inject_Z (Z.of_nat K)))
    | _ => Err (Raised "hmm_smoother")
    end;
  compute_transition_probs tm p := Ok (full (shape tm) 0)
|}.

(** A generator that returns the centre of the simplex. *)
#[export] Instance random : JaxRandom := {|
  PRNGKey := nat;
  jr_split3 key := ((3 * key)%nat, (3 * key + 1)%nat, (3 * key + 2)%nat);
  jr_dirichlet key alpha s :=
    let n := length (data alpha) in
    Ok (full (s ++ [n]) (1 / inject_Z (Z.of_nat n)))
|}.

(** The two-state model of the specification's scenario. *)
Definition model : CategoricalHMM := {|
  _initial_probs := param (Array [2%nat] [0.5; 0.5]);
  _transition_matrix := param (Array [2; 2]%nat [0.9; 0.1; 0.1; 0.9]);
  _emission_probs := param (Array [2; 1; 3]%nat [0.8; 0.1; 0.1; 0.1; 0.1; 0.8])
|}.

(** Two sequences of length 2 over one channel. *)
Definition batch : ndarray Z := Array [2; 2; 1]%nat [0; 2; 1; 1]%Z.

(** The statistics records of two sequences, for two states, one channel
    and three classes. *)
Definition record1 : CategoricalHMMSuffStats (ndarray Q) := {|
  marginal_loglik := Array [] [-(3 # 2)];
  initial_probs := Array [2%nat] [0.25; 0.75];
  trans_probs := Array [2; 2]%nat [0.5; 0.5; 0; 1];
  sum_x := Array [2; 1; 3]%nat [0.5; 0; 0.5; 0; 1; 1]
|}.

Definition record2 : CategoricalHMMSuffStats (ndarray Q) := {|
  marginal_loglik := Array [] [-(5 # 4)];
  initial_probs := Array [2%nat] [1; 0];
  trans_probs := Array [2; 2]%nat [1.5; 0.5; 0.25; 0.75];
  sum_x := Array [2; 1; 3]%nat [2; 0.5; 0.5; 0; 0; 0]
|}.

(** A one-sequence batch of statistics for two states, one channel and
    three classes. *)
Definition stats1 : CategoricalHMMSuffStats (ndarray Q) := {|
  marginal_loglik := Array [1%nat] [-(3 # 2)];
  initial_probs := Array [1; 2]%nat [0.25; 0.75];
  trans_probs := Array [1; 2; 2]%nat [0.5; 0.5; 0; 1];
  sum_x := Array [1; 2; 1; 3]%nat [0.5; 0; 0.5; 0; 1; 1]
|}.

(** The same batch with a transition statistic that lacks its event
    axes: summing it over the batch axis leaves a rank-0 array. *)
Definition stats_short : CategoricalHMMSuffStats (ndarray Q) := {|
  marginal_loglik := marginal_loglik stats1;
  initial_probs := initial_probs stats1;
  trans_probs := Array [1%nat] [1];
  sum_x := sum_x stats1
|}.

End Instances.

(** ** Notions used in the statements *)

(** Finite sums indexed by [0 .. n-1]. *)
Definition sum_upto (n : nat) (f : nat -> Q) : Q := sumQ (map f (seq 0 n)).



(** The shapes of the fields of a statistics record. *)
Definition stats_shapes (t : CategoricalHMMSuffStats (ndarray Q))
  : CategoricalHMMSuffStats (list nat) :=
  {| marginal_loglik := shape (marginal_loglik t);
     initial_probs := shape (initial_probs t);
     trans_probs := shape (trans_probs t);
     sum_x := shape (sum_x t) |}.

Definition stats_well_formed (t : CategoricalHMMSuffStats (ndarray Q)) : Prop :=
  well_formed (marginal_loglik t) /\ well_formed (initial_probs t) /\
  well_formed (trans_probs t) /\ well_formed (sum_x t).

(** Every observation is a class index in [0, C). *)
Definition valid_observations (C : nat) (x : ndarray Z) : Prop :=
  Forall (fun v => (0 <= v < Z.of_nat C)%Z) (data x).

(** The expected number of emissions of class [i] on channel [d] in state
    [k], for the smoothed marginals [gamma] (time x state) and [T]
    observations [obs t] on that channel. *)
Definition expected_count (T : nat) (gamma : ndarray Q) (obs : nat -> Z)
    (k i : nat) : Q :=
  sum_upto T (fun t =>
    get gamma [t; k] * (if (obs t =? Z.of_nat i)%Z then 1 else 0)).

(** A valid model over [K] states, [D] channels and [C] classes: the
    initial distribution, every row of the transition matrix and every
    (state, channel) slice of the emission tensor are non-negative and sum
    to one. *)
Definition stochastic_model (m : CategoricalHMM) (K D C : nat) : Prop :=
  let ip := value (_initial_probs m) in
  let tm := value (_transition_matrix m) in
  let ep := value (_emission_probs m) in
  ((forall i, 0 <= get ip [i]) /\
   sum_upto K (fun i => get ip [i]) == 1) /\
  (forall k, (k < K)%nat ->
     (forall j, 0 <= get tm [k; j]) /\
     sum_upto K (fun j => get tm [k; j]) == 1) /\
  (forall k d, (k < K)%nat -> (d < D)%nat ->
     (forall i, 0 <= get ep [k; d; i]) /\
     sum_upto C (fun i => get ep [k; d; i]) == 1).

Definition nonneg (a : ndarray Q) : Prop := Forall (fun x => 0 <= x) (data a).

Definition positive (a : ndarray Q) : Prop := Forall (fun x => 0 < x) (data a).

(** ** Statements about [m_step] as a state transformer *)

(** The parameters after assigning the first one, two or three of them. *)
Definition assigned1 (self : CategoricalHMM) (v1 : ndarray Q) : CategoricalHMM :=
  {| _initial_probs := set_value (_initial_probs self) v1;
     _transition_matrix := _transition_matrix self;
     _emission_probs := _emission_probs self |}.

Definition assigned2 (self : CategoricalHMM) (v1 v2 : ndarray Q)
  : CategoricalHMM :=
  {| _initial_probs := set_value (_initial_probs self) v1;
     _transition_matrix := set_value (_transition_matrix self) v2;
     _emission_probs := _emission_probs self |}.

Definition assigned3 (self : CategoricalHMM) (v1 v2 v3 : ndarray Q)
  : CategoricalHMM :=
  {| _initial_probs := set_value (_initial_probs self) v1;
     _transition_matrix := set_value (_transition_matrix self) v2;
     _emission_probs := set_value (_emission_probs self) v3 |}.

(** All-or-nothing behaviour of one call: it succeeds and the three
    parameters are replaced, or it fails and [self] is as before. *)
Definition all_or_nothing {KW : Type} (batch_emissions : ndarray Z)
    (batch_posteriors : CategoricalHMMSuffStats (ndarray Q)) (kwargs : KW)
    (self : CategoricalHMM) : Prop :=
  let out := m_step batch_emissions batch_posteriors kwargs self in
  (snd out = Ok tt /\ exists v1 v2 v3, fst out = assigned3 self v1 v2 v3) \/
  (is_ok (snd out) = false /\ fst out = self).

(** ** Further notions and inputs *)

(** The number of timesteps, among [T], whose observation is a class index
    in [0, C). *)
Definition in_range_count (T C : nat) (obs : nat -> Z) : Q :=
  sum_upto T (fun t =>
    if ((0 <=? obs t) && (obs t <? Z.of_nat C))%Z then 1 else 0).

(** The expected number of timesteps spent in state [k]. *)
Definition expected_occupancy (T : nat) (gamma : ndarray Q) (k : nat) : Q :=
  sum_upto T (fun t => get gamma [t; k]).

(** The three parameter values of a model. *)
Definition parameter_values (m : CategoricalHMM)
  : ndarray Q * ndarray Q * ndarray Q :=
  (value (_initial_probs m), value (_transition_matrix m),
   value (_emission_probs m)).

Definition parameter_bijectors (m : CategoricalHMM)
  : Bijector * Bijector * Bijector :=
  (bijector (_initial_probs m), bijector (_transition_matrix m),
   bijector (_emission_probs m)).

Module Inputs.

(** Statistics of one sequence whose [sum_x] lacks the state and channel
    axes. *)
Definition stats_flat : CategoricalHMMSuffStats (ndarray Q) := {|
  marginal_loglik := marginal_loglik Instances.stats1;
  initial_probs := initial_probs Instances.stats1;
  trans_probs := trans_probs Instances.stats1;
  sum_x := Array [1; 3]%nat [1; 0; 2]
|}.


(** One sequence whose second observation is not a class index. *)
Definition batch_out_of_range : ndarray Z := Array [1; 2; 1]%nat [0; 7]%Z.

(** Two sequences of length 0. *)
Definition batch_of_empty_sequences : ndarray Z := Array [2; 0; 1]%nat [].

End Inputs.

(** The entries of an integer array of JAX's default integer type. *)
Definition int32_values (a : ndarray Z) : Prop :=
  Forall (fun z => (- 2 ^ 31 <= z < 2 ^ 31)%Z) (data a).

Module OneState.

(** A model over one state, one channel and two classes. *)
Definition model : CategoricalHMM := {|
  _initial_probs := Instances.param (Array [1%nat] [1]);
  _transition_matrix := Instances.param (Array [1; 1]%nat [1]);
  _emission_probs := Instances.param (Array [1; 1; 2]%nat [0.5; 0.5])
|}.

(** One sequence of length 2. *)
Definition batch : ndarray Z := Array [1; 2; 1]%nat [0; 1]%Z.

(** The statistics of that sequence: the only state is occupied at both
    timesteps. *)
Definition stats : CategoricalHMMSuffStats (ndarray Q) := {|
  marginal_loglik := Array [1%nat] [-(7 # 5)];
  initial_probs := Array [1; 1]%nat [1];
  trans_probs := Array [1; 1; 1]%nat [1];
  sum_x := Array [1; 1; 1; 2]%nat [1; 1]
|}.

End OneState.

(** ** The M-step in binary32 arithmetic

    The arithmetic of [m_step] over the numbers JAX computes with by
    default: IEEE 754 binary32, rounding to nearest, ties to even
    ([spec_float] with precision 24 and maximal exponent 128).  The
    definitions follow those above, with the same names; they differ in the
    number type, in the order of accumulation, which matters here, and in
    the undefined mode, which is a NaN. *)

Module Float32.

Definition float32 : Type := spec_float.

Definition prec : Z := 24%Z.
Definition emax : Z := 128%Z.

Definition zero : float32 := S754_zero false.
Definition nan : float32 := S754_nan.

Definition add : float32 -> float32 -> float32 := SFadd prec emax.
Definition sub : float32 -> float32 -> float32 := SFsub prec emax.
Definition div : float32 -> float32 -> float32 := SFdiv prec emax.

(** An integer as a binary32 number. *)
Definition of_int (n : Z) : float32 := binary_normalize prec emax n 0%Z false.

(** A Python float literal [n / d]: a binary64 number, which JAX converts to
    binary32 when it meets a binary32 array. *)
Definition of_python_float (n d : Z) : float32 :=
  match SFdiv 53 1024 (binary_normalize 53 1024 n 0%Z false)
                      (binary_normalize 53 1024 d 0%Z false) with
  | S754_finite sg m e => binary_normalize prec emax (cond_Zopp sg (Zpos m)) e sg
  | x => x
  end.

Definition nonneg (a : ndarray float32) : Prop :=
  Forall (fun x => SFleb zero x = true) (data a).

Definition positive (a : ndarray float32) : Prop :=
  Forall (fun x => SFltb zero x = true) (data a).

(** Entrywise sum of a list of blocks of [k] entries, accumulated from
    zero in the order of the list.  (XLA does not fix the order in which a
    reduction combines its operands.) *)
Definition sum_blocks (k : nat) (blocks : list (list float32))
  : list float32 :=
  fold_left (zip_with add) blocks (repeat zero k).

(** [jnp.sum(a, axis=0)] *)
Definition jnp_sum_axis0 (a : ndarray float32) : result (ndarray float32) :=
  match shape a with
  | [] => Err ValueError
  | n :: s => Ok (Array s (sum_blocks (numel s) (chunks (numel s) n (data a))))
  end.

(** [c + a] for a Python float [c], converted beforehand. *)
Definition scalar_add (c : float32) (a : ndarray float32) : ndarray float32 :=
  Array (shape a) (map (add c) (data a)).

Definition reduce_sum (l : list float32) : float32 := fold_left add l zero.

(** Modelled from the spec: [tfd.Dirichlet(...).mode()] is library code; the
    specification gives its closed form
    [(alpha_i - 1) / (sum_j alpha_j - K)] for concentrations above one.  The
    library evaluates it in the arithmetic of its argument and returns NaN
    for a vector in which some concentration is not above one. *)
Definition mode_row (K : nat) (alpha : list float32) : list float32 :=
  let total := reduce_sum alpha in
  let k := of_int (Z.of_nat K) in
  if forallb (fun a => SFltb (of_int 1) a) alpha
  then map (fun a => div (sub a (of_int 1)) (sub total k)) alpha
  else map (fun _ => nan) alpha.

Record Dirichlet : Type := { concentration : ndarray float32 }.

Definition tfd_Dirichlet (conc : ndarray float32) : result Dirichlet :=
  match shape conc with
  | [] => Err ValueError
  | _ :: _ =>
      if (last (shape conc) 0 <? 2)%nat then Err ValueError
      else Ok {| concentration := conc |}
  end.

Definition Dirichlet_mode (d : Dirichlet) : ndarray float32 :=
  let a := concentration d in
  let K := last (shape a) 0%nat in
  Array (shape a)
    (concat (map (mode_row K)
               (chunks K (numel (removelast (shape a))) (data a)))).

Record Param : Type := { value : ndarray float32; bijector : Bijector }.

Definition set_value (p : Param) (v : ndarray float32) : Param :=
  {| value := v; bijector := bijector p |}.

Record CategoricalHMM : Type := {
  _initial_probs : Param;
  _transition_matrix : Param;
  _emission_probs : Param
}.

(** [tfd.Dirichlet(c + a).mode()] *)
Definition posterior_mode (c : float32) (a : ndarray float32)
  : result (ndarray float32) :=
  (d <- tfd_Dirichlet (scalar_add c a) ;; Ok (Dirichlet_mode d))%result.

(** The pseudo-counts [1.0001] and [1.1] of the source. *)
Definition pseudo_count_1_0001 : float32 := of_python_float 10001 10000.
Definition pseudo_count_1_1 : float32 := of_python_float 11 10.

(** [CategoricalHMM.m_step], the model being passed along: each assignment
    to [self] takes effect before the next right-hand side is evaluated. *)
Definition m_step {KW : Type} (batch_emissions : ndarray Z)
    (batch_posteriors : CategoricalHMMSuffStats (ndarray float32))
    (kwargs : KW) (self : CategoricalHMM) : CategoricalHMM * result unit :=
  match tree_map jnp_sum_axis0 batch_posteriors with
  | Err e => (self, Err e)
  | Ok stats =>
      match posterior_mode pseudo_count_1_0001 (initial_probs stats) with
      | Err e => (self, Err e)
      | Ok v1 =>
          let self1 :=
            {| _initial_probs := set_value (_initial_probs self) v1;
               _transition_matrix := _transition_matrix self;
               _emission_probs := _emission_probs self |} in
          match posterior_mode pseudo_count_1_0001 (trans_probs stats) with
          | Err e => (self1, Err e)
          | Ok v2 =>
              let self2 :=
                {| _initial_probs := _initial_probs self1;
                   _transition_matrix :=
                     set_value (_transition_matrix self1) v2;
                   _emission_probs := _emission_probs self1 |} in
              match posterior_mode pseudo_count_1_1 (sum_x stats) with
              | Err e => (self2, Err e)
              | Ok v3 =>
                  ({| _initial_probs := _initial_probs self2;
                      _transition_matrix := _transition_matrix self2;
                      _emission_probs :=
                        set_value (_emission_probs self2) v3 |}, Ok tt)
              end
          end
      end
  end.

(** *** Batches and inputs *)

Definition stack (proto : ndarray float32) (outs : list (ndarray float32))
  : ndarray float32 :=
  Array (length outs :: shape proto) (concat (map (@data float32) outs)).

Definition stack_stats (proto : CategoricalHMMSuffStats (ndarray float32))
    (outs : list (CategoricalHMMSuffStats (ndarray float32)))
  : CategoricalHMMSuffStats (ndarray float32) :=
  {| marginal_loglik :=
       stack (marginal_loglik proto) (map (@marginal_loglik _) outs);
     initial_probs :=
       stack (initial_probs proto) (map (@initial_probs _) outs);
     trans_probs := stack (trans_probs proto) (map (@trans_probs _) outs);
     sum_x := stack (sum_x proto) (map (@sum_x _) outs) |}.

(** [jnp.add] of two arrays of the same shape, and the entrywise sum of two
    statistics records. *)
Definition jnp_add (a b : ndarray float32) : ndarray float32 :=
  Array (shape a) (zip_with add (data a) (data b)).

Definition add_stats (s t : CategoricalHMMSuffStats (ndarray float32))
  : CategoricalHMMSuffStats (ndarray float32) :=
  {| marginal_loglik := jnp_add (marginal_loglik s) (marginal_loglik t);
     initial_probs := jnp_add (initial_probs s) (initial_probs t);
     trans_probs := jnp_add (trans_probs s) (trans_probs t);
     sum_x := jnp_add (sum_x s) (sum_x t) |}.

(** The entrywise sum of a list of arrays of the shape of [proto], and of a
    list of statistics records, computed like the sum over a batch axis. *)
Definition sum_arrays (proto : ndarray float32) (l : list (ndarray float32))
  : ndarray float32 :=
  Array (shape proto)
    (sum_blocks (numel (shape proto)) (map (@data float32) l)).

Definition sum_stats (proto : CategoricalHMMSuffStats (ndarray float32))
    (l : list (CategoricalHMMSuffStats (ndarray float32)))
  : CategoricalHMMSuffStats (ndarray float32) :=
  {| marginal_loglik :=
       sum_arrays (marginal_loglik proto) (map (@marginal_loglik _) l);
     initial_probs :=
       sum_arrays (initial_probs proto) (map (@initial_probs _) l);
     trans_probs := sum_arrays (trans_probs proto) (map (@trans_probs _) l);
     sum_x := sum_arrays (sum_x proto) (map (@sum_x _) l) |}.

Definition array_like (proto a : ndarray float32) : Prop :=
  has_shape a (shape proto).

Definition record_like (proto t : CategoricalHMMSuffStats (ndarray float32))
  : Prop :=
  array_like (marginal_loglik proto) (marginal_loglik t) /\
  array_like (initial_probs proto) (initial_probs t) /\
  array_like (trans_probs proto) (trans_probs t) /\
  array_like (sum_x proto) (sum_x t).

Definition full (s : list nat) (v : float32) : ndarray float32 :=
  Array s (repeat v (numel s)).

Definition param (a : ndarray float32) : Param :=
  {| value := a; bijector := Invert SoftmaxCentered |}.

(** A uniform model over two states, one channel and two classes. *)
Definition model : CategoricalHMM := {|
  _initial_probs := param (full [2%nat] (of_python_float 1 2));
  _transition_matrix := param (full [2; 2]%nat (of_python_float 1 2));
  _emission_probs := param (full [2; 1; 2]%nat (of_python_float 1 2))
|}.

(** Observation batches of three sequences, of the same in reverse order,
    and of one sequence; [m_step] receives them and does not read them. *)
Definition batch : ndarray Z := Array [3; 1; 1]%nat [0; 1; 1]%Z.
Definition batch_reversed : ndarray Z := Array [3; 1; 1]%nat [1; 1; 0]%Z.

(** The statistics of a long sequence, with [2^24] transitions from the
    first state to itself and as many emissions of the first class in that
    state, and of a short sequence with unit counts. *)
Definition record_large : CategoricalHMMSuffStats (ndarray float32) := {|
  marginal_loglik := Array [] [zero];
  initial_probs := Array [2%nat] [of_int 1; zero];
  trans_probs :=
    Array [2; 2]%nat [of_int 16777216; of_int 1; of_int 1; of_int 1];
  sum_x :=
    Array [2; 1; 2]%nat [of_int 16777216; of_int 1; of_int 1; of_int 1]
|}.

Definition record_unit : CategoricalHMMSuffStats (ndarray float32) := {|
  marginal_loglik := Array [] [zero];
  initial_probs := Array [2%nat] [of_int 1; zero];
  trans_probs := full [2; 2]%nat (of_int 1);
  sum_x := full [2; 1; 2]%nat (of_int 1)
|}.


End Float32.

(* ================================================================= *)
(** * Part II.  Properties *)
(* ================================================================= *)

(** ** Lists, blocks and sums *)

Section Blocks.

Context {A : Type}.

Lemma chunks_length (k n : nat) (l : list A) : length (chunks k n l) = n.
Proof.
  revert l; induction n as [|n IH]; intros l; simpl; [reflexivity|].
  now rewrite IH.
Qed.

Lemma chunks_cons (k n : nat) (b rest : list A) :
  length b = k -> chunks k (S n) (b ++ rest) = b :: chunks k n rest.
Proof.
  intros Hb; subst k; cbn [chunks].
  rewrite firstn_app, skipn_app, Nat.sub_diag, firstn_all, skipn_all.
  cbn [firstn skipn app]. now rewrite app_nil_r.
Qed.

(** Cutting a concatenation of blocks of equal length gives the blocks. *)
Lemma chunks_concat (k : nat) (bs : list (list A)) :
  Forall (fun b => length b = k) bs ->
  chunks k (length bs) (concat bs) = bs.
Proof.
  induction 1 as [|b bs Hb _ IH]; [reflexivity|].
  cbn [concat length]. rewrite chunks_cons by assumption. now rewrite IH.
Qed.

Lemma chunks_repeat (k n : nat) (v : A) :
  chunks k n (repeat v (n * k)) = repeat (repeat v k) n.
Proof.
  induction n as [|n IH]; [reflexivity|].
  cbn [Nat.mul repeat]. rewrite repeat_app, chunks_cons by apply repeat_length.
  now rewrite IH.
Qed.

Lemma chunks_all_length (k n : nat) (l : list A) :
  length l = (n * k)%nat -> Forall (fun b => length b = k) (chunks k n l).
Proof.
  revert l; induction n as [|n IH]; intros l Hl; simpl; constructor.
  - rewrite length_firstn. simpl in Hl. lia.
  - apply IH. rewrite length_skipn. simpl in Hl. lia.
Qed.

Lemma concat_chunks (k n : nat) (l : list A) :
  length l = (n * k)%nat -> concat (chunks k n l) = l.
Proof.
  revert l; induction n as [|n IH]; intros l Hl; simpl.
  - simpl in Hl. now destruct l.
  - rewrite IH.
    + apply firstn_skipn.
    + rewrite length_skipn. simpl in Hl. lia.
Qed.

Lemma nth_chunks (k n t : nat) (l : list A) :
  (t < n)%nat ->
  nth t (chunks k n l) [] = firstn k (skipn (t * k) l).
Proof.
  revert t l; induction n as [|n IH]; intros t l Ht; [lia|].
  destruct t as [|t]; simpl; [reflexivity|].
  rewrite IH by lia. now rewrite skipn_skipn, Nat.add_comm.
Qed.

Lemma nth_firstn_skipn (k o j : nat) (l : list A) (d : A) :
  (j < k)%nat -> nth j (firstn k (skipn o l)) d = nth (o + j) l d.
Proof.
  intros Hj. rewrite nth_firstn.
  destruct (Nat.ltb_spec j k); [|lia].
  now rewrite nth_skipn.
Qed.

Lemma chunks_map_nth (k n : nat) (l : list A) :
  chunks k n l = map (fun t => firstn k (skipn (t * k) l)) (seq 0 n).
Proof.
  apply nth_ext with (d := []) (d' := firstn k (skipn (0 * k) l)).
  - now rewrite chunks_length, length_map, length_seq.
  - intros t Ht. rewrite chunks_length in Ht.
    rewrite nth_chunks by assumption.
    rewrite (map_nth (fun t => firstn k (skipn (t * k) l))).
    now rewrite seq_nth.
Qed.

(** The entry [r * k + i] of a concatenation of blocks of length [k]. *)
Lemma nth_concat (k r i : nat) (bs : list (list A)) (d : A) :
  Forall (fun b => length b = k) bs -> (i < k)%nat ->
  nth (r * k + i) (concat bs) d = nth i (nth r bs []) d.
Proof.
  intros Hbs Hi; revert r; induction Hbs as [|b bs Hb _ IH]; intros r.
  - simpl. destruct (r * k + i)%nat, r, i; reflexivity.
  - destruct r as [|r]; cbn [concat nth].
    + simpl. rewrite app_nth1 by lia. reflexivity.
    + rewrite app_nth2 by (simpl; lia).
      replace (S r * k + i - length b)%nat with (r * k + i)%nat
        by (simpl; lia).
      apply IH.
Qed.

Lemma length_concat_blocks (k : nat) (bs : list (list A)) :
  Forall (fun b => length b = k) bs ->
  length (concat bs) = (length bs * k)%nat.
Proof.
  induction 1 as [|b bs Hb _ IH]; [reflexivity|].
  cbn [concat length]. rewrite length_app, IH. simpl. lia.
Qed.

End Blocks.

Section Sums.

(** On the representation of [Q] addition is associative and commutative
    and has [0] as a unit for the equality of Rocq, not only for [==]:
    no fraction is reduced. *)
Lemma Qplus_comm_eq (x y : Q) : x + y = y + x.
Proof. unfold Qplus. f_equal; [ring | apply Pos.mul_comm]. Qed.

Lemma Qplus_assoc_eq (x y z : Q) : x + (y + z) = x + y + z.
Proof.
  unfold Qplus; simpl. f_equal.
  - rewrite !Pos2Z.inj_mul. ring.
  - apply Pos.mul_assoc.
Qed.

Lemma Qplus_0_r_eq (x : Q) : x + 0 = x.
Proof.
  destruct x as [n d]; unfold Qplus; simpl.
  f_equal; [ring | apply Pos.mul_1_r].
Qed.

Lemma Qplus_0_l_eq (x : Q) : 0 + x = x.
Proof. now rewrite Qplus_comm_eq, Qplus_0_r_eq. Qed.

Lemma zip_with_length {X Y W} (f : X -> Y -> W) (l1 : list X) (l2 : list Y) :
  length (zip_with f l1 l2) = Nat.min (length l1) (length l2).
Proof.
  revert l2; induction l1 as [|x l1 IH]; intros [|y l2]; simpl; auto.
Qed.

Lemma zip_with_Qplus_comm (l1 l2 : list Q) :
  zip_with Qplus l1 l2 = zip_with Qplus l2 l1.
Proof.
  revert l2; induction l1 as [|x l1 IH]; intros [|y l2]; simpl; auto.
  now rewrite Qplus_comm_eq, IH.
Qed.

Lemma zip_with_Qplus_assoc (l1 l2 l3 : list Q) :
  zip_with Qplus l1 (zip_with Qplus l2 l3)
  = zip_with Qplus (zip_with Qplus l1 l2) l3.
Proof.
  revert l2 l3; induction l1 as [|x l1 IH]; intros [|y l2] [|z l3];
    simpl; auto.
  now rewrite Qplus_assoc_eq, IH.
Qed.

Lemma zip_with_Qplus_zeros (k : nat) (l : list Q) :
  (length l <= k)%nat -> zip_with Qplus l (repeat 0 k) = l.
Proof.
  revert k; induction l as [|x l IH]; intros [|k] Hk; simpl in *;
    try reflexivity; try lia.
  rewrite Qplus_0_r_eq, IH by lia. reflexivity.
Qed.

Lemma nth_zip_with_Qplus (j : nat) (l1 l2 : list Q) :
  (j < length l1)%nat -> (j < length l2)%nat ->
  nth j (zip_with Qplus l1 l2) 0 = nth j l1 0 + nth j l2 0.
Proof.
  revert j l2; induction l1 as [|x l1 IH]; intros j [|y l2] H1 H2;
    simpl in *; try lia.
  destruct j; [reflexivity|]. apply IH; lia.
Qed.

Lemma sum_blocks_length_le (k : nat) (bs : list (list Q)) :
  (length (sum_blocks k bs) <= k)%nat.
Proof.
  unfold sum_blocks. induction bs as [|b bs IH]; simpl.
  - now rewrite repeat_length.
  - rewrite zip_with_length. lia.
Qed.

Lemma sum_blocks_length (k : nat) (bs : list (list Q)) :
  Forall (fun b => length b = k) bs -> length (sum_blocks k bs) = k.
Proof.
  unfold sum_blocks. induction 1 as [|b bs Hb _ IH]; simpl.
  - apply repeat_length.
  - rewrite zip_with_length, IH, Hb. apply Nat.min_id.
Qed.

(** An entry of the sum of blocks is the sum of the entries. *)
Lemma nth_sum_blocks (k j : nat) (bs : list (list Q)) :
  Forall (fun b => length b = k) bs -> (j < k)%nat ->
  nth j (sum_blocks k bs) 0 = sumQ (map (fun b => nth j b 0) bs).
Proof.
  intros Hbs Hj. induction Hbs as [|b bs Hb Hbs IH].
  - unfold sum_blocks; simpl. apply nth_repeat_lt; assumption.
  - change (sum_blocks k (b :: bs))
      with (zip_with Qplus b (sum_blocks k bs)).
    rewrite nth_zip_with_Qplus.
    + simpl. now rewrite IH.
    + lia.
    + rewrite sum_blocks_length; assumption.
Qed.

(** The sum of blocks does not depend on their order. *)
Lemma sum_blocks_perm (k : nat) (bs bs' : list (list Q)) :
  Permutation bs bs' -> sum_blocks k bs = sum_blocks k bs'.
Proof.
  unfold sum_blocks. induction 1 as [| b l l' _ IH | a b l | l l' l'' _ IH1 _ IH2];
    simpl.
  - reflexivity.
  - now rewrite IH.
  - rewrite !zip_with_Qplus_assoc. f_equal. apply zip_with_Qplus_comm.
  - now rewrite IH1.
Qed.

(** Summing two groups of blocks separately and adding the results is
    summing all of them. *)
Lemma sum_blocks_app (k : nat) (bs1 bs2 : list (list Q)) :
  sum_blocks k (bs1 ++ bs2)
  = zip_with Qplus (sum_blocks k bs1) (sum_blocks k bs2).
Proof.
  induction bs1 as [|b bs1 IH].
  - simpl. rewrite zip_with_Qplus_comm.
    symmetry. apply zip_with_Qplus_zeros, sum_blocks_length_le.
  - change (sum_blocks k ((b :: bs1) ++ bs2))
      with (zip_with Qplus b (sum_blocks k (bs1 ++ bs2))).
    rewrite IH. apply zip_with_Qplus_assoc.
Qed.

Lemma sumQ_app (l1 l2 : list Q) : sumQ (l1 ++ l2) = sumQ l1 + sumQ l2.
Proof.
  induction l1 as [|x l1 IH]; simpl.
  - now rewrite Qplus_0_l_eq.
  - now rewrite IH, Qplus_assoc_eq.
Qed.

Lemma sumQ_map_ext {X} (f g : X -> Q) (l : list X) :
  (forall x, In x l -> f x == g x) -> sumQ (map f l) == sumQ (map g l).
Proof.
  induction l as [|x l IH]; intros H; simpl; [reflexivity|].
  rewrite (H x) by now left. rewrite IH; [reflexivity|].
  intros y Hy; apply H; now right.
Qed.

Lemma sumQ_map_plus {X} (f g : X -> Q) (l : list X) :
  sumQ (map (fun x => f x + g x) l) == sumQ (map f l) + sumQ (map g l).
Proof.
  induction l as [|x l IH]; simpl; [reflexivity|]. rewrite IH. ring.
Qed.

Lemma sumQ_map_scale {X} (c : Q) (f : X -> Q) (l : list X) :
  sumQ (map (fun x => c * f x) l) == c * sumQ (map f l).
Proof.
  induction l as [|x l IH]; simpl; [ring|]. rewrite IH. ring.
Qed.

Lemma sumQ_map_const {X} (c : Q) (l : list X) :
  sumQ (map (fun _ => c) l) == inject_Z (Z.of_nat (length l)) * c.
Proof.
  induction l as [|x l IH]; [simpl; ring|].
  cbn [map sumQ fold_right length]. fold (sumQ (map (fun _ => c) l)).
  rewrite IH, Nat2Z.inj_succ. unfold Z.succ. rewrite inject_Z_plus. ring.
Qed.

(** Exchange of two finite sums. *)
Lemma sumQ_exchange {X Y} (f : X -> Y -> Q) (l1 : list X) (l2 : list Y) :
  sumQ (map (fun x => sumQ (map (fun y => f x y) l2)) l1)
  == sumQ (map (fun y => sumQ (map (fun x => f x y) l1)) l2).
Proof.
  induction l1 as [|x l1 IH]; simpl.
  - rewrite (sumQ_map_const 0 l2). ring.
  - rewrite IH. now rewrite <- sumQ_map_plus.
Qed.

Lemma sumQ_nonneg (l : list Q) : Forall (fun x => 0 <= x) l -> 0 <= sumQ l.
Proof.
  induction 1 as [|x l Hx _ IH]; simpl; [apply Qle_refl|].
  replace 0 with (0 + 0) by reflexivity. now apply Qplus_le_compat.
Qed.

(** A list as the table of its entries. *)
Lemma list_map_nth {X} (l : list X) (d : X) :
  l = map (fun j => nth j l d) (seq 0 (length l)).
Proof.
  apply nth_ext with (d := d) (d' := nth 0 l d).
  - now rewrite length_map, length_seq.
  - intros j Hj.
    rewrite (map_nth (fun j => nth j l d)), seq_nth by assumption.
    reflexivity.
Qed.

End Sums.

(** ** Construction *)

Lemma CategoricalHMM_init_rank_required (base : BaseHMM)
    (initial_probabilities transition_matrix emission_probs : ndarray Q) :
  ndim emission_probs <> 3%nat ->
  is_ok (CategoricalHMM_init initial_probabilities transition_matrix
           emission_probs) = false.
Proof.
  intros Hrank. unfold CategoricalHMM_init, rbind.
  destruct (BaseHMM_init _ _); [|reflexivity].
  destruct (Nat.eqb_spec (ndim emission_probs) 3); [contradiction|reflexivity].
Qed.

(** C7.  Whenever the superclass constructor accepts the initial
    distribution and the transition matrix, the construction fails if and
    only if [emission_probs] does not have rank 3, and the failure is the
    shape assertion of the constructor; the check is a single test made
    during construction. *)
Theorem CategoricalHMM_init_fails_iff_rank (base : BaseHMM)
    (initial_probabilities transition_matrix emission_probs : ndarray Q) :
  is_ok (BaseHMM_init initial_probabilities transition_matrix) = true ->
  (is_ok (CategoricalHMM_init initial_probabilities transition_matrix
            emission_probs) = false
   <-> ndim emission_probs <> 3%nat) /\
  (CategoricalHMM_init initial_probabilities transition_matrix emission_probs
   = Err (AssertionError
            "emission_probs must be (num_states x num_emissions x num_classes)")
   <-> ndim emission_probs <> 3%nat).
Proof.
  intros Hbase. unfold CategoricalHMM_init, rbind.
  destruct (BaseHMM_init _ _) as [ps|e]; [|discriminate].
  destruct (Nat.eqb_spec (ndim emission_probs) 3) as [H3|H3]; simpl;
    split; split; intros H; congruence || discriminate.
Qed.

Lemma CategoricalHMM_init_fails_iff_rank_witness :
  is_ok (BaseHMM_init (BaseHMM := Instances.base)
           (value (_initial_probs Instances.model))
           (value (_transition_matrix Instances.model))) = true /\
  is_ok (CategoricalHMM_init (base := Instances.base)
           (value (_initial_probs Instances.model))
           (value (_transition_matrix Instances.model))
           (value (_transition_matrix Instances.model))) = false.
Proof.
  split; [reflexivity|].
  apply (CategoricalHMM_init_fails_iff_rank Instances.base); [reflexivity|].
  vm_compute; discriminate.
Defined.

(** ** The M-step *)

(** C10.  The result of [m_step], the updated parameters as well as the
    outcome, is the same for any two values of [batch_emissions] and of the
    keyword arguments. *)
Theorem m_step_ignores_batch_emissions (KW1 KW2 : Type)
    (batch_emissions1 batch_emissions2 : ndarray Z)
    (kwargs1 : KW1) (kwargs2 : KW2)
    (batch_posteriors : CategoricalHMMSuffStats (ndarray Q))
    (self : CategoricalHMM) :
  m_step batch_emissions1 batch_posteriors kwargs1 self
  = m_step batch_emissions2 batch_posteriors kwargs2 self.
Proof. reflexivity. Qed.

(** What a call of [m_step] does, case by case. *)
Lemma m_step_cases (KW : Type) (batch_emissions : ndarray Z)
    (batch_posteriors : CategoricalHMMSuffStats (ndarray Q)) (kwargs : KW)
    (self : CategoricalHMM) :
  match tree_map jnp_sum_axis0 batch_posteriors with
  | Err e => m_step batch_emissions batch_posteriors kwargs self = (self, Err e)
  | Ok stats =>
      match posterior_mode 1.0001 (initial_probs stats) with
      | Err e =>
          m_step batch_emissions batch_posteriors kwargs self = (self, Err e)
      | Ok v1 =>
          match posterior_mode 1.0001 (trans_probs stats) with
          | Err e =>
              m_step batch_emissions batch_posteriors kwargs self
              = (assigned1 self v1, Err e)
          | Ok v2 =>
              match posterior_mode 1.1 (sum_x stats) with
              | Err e =>
                  m_step batch_emissions batch_posteriors kwargs self
                  = (assigned2 self v1 v2, Err e)
              | Ok v3 =>
                  m_step batch_emissions batch_posteriors kwargs self
                  = (assigned3 self v1 v2 v3, Ok tt)
              end
          end
      end
  end.
Proof.
  unfold m_step, mbind, eval.
  destruct (tree_map jnp_sum_axis0 batch_posteriors) as [stats|e];
    [|reflexivity].
  destruct (posterior_mode 1.0001 (initial_probs stats)) as [v1|e];
    [|reflexivity].
  cbn [assign_initial_probs _initial_probs _transition_matrix _emission_probs].
  destruct (posterior_mode 1.0001 (trans_probs stats)) as [v2|e];
    [|reflexivity].
  cbn [assign_transition_matrix _initial_probs _transition_matrix
       _emission_probs].
  destruct (posterior_mode 1.1 (sum_x stats)) as [v3|e]; reflexivity.
Qed.

(** C2, as stated, fails: on a batch whose transition statistic has no
    event axes the call raises after the initial distribution has been
    assigned. *)
Lemma m_step_not_all_or_nothing :
  ~ all_or_nothing Instances.batch Instances.stats_short tt Instances.model /\
  (exists e v1,
     m_step Instances.batch Instances.stats_short tt Instances.model
     = (assigned1 Instances.model v1, Err e) /\
     v1 <> value (_initial_probs Instances.model)).
Proof.
  split.
  - unfold all_or_nothing. intros [[H _]|[_ H]]; vm_compute in H; discriminate.
  - eexists; eexists; split; [vm_compute; reflexivity|].
    vm_compute; discriminate.
Qed.

(** C2, amended.  A call of [m_step] either succeeds, and then the three
    parameters hold the posterior modes of the summed statistics, or it
    fails, and then the parameters assigned before the failure, a prefix of
    (initial distribution, transition matrix, emission probabilities), hold
    their new values and the others their old ones; the emission
    probabilities are never changed by a failing call, and a call that
    fails while summing the statistics changes nothing. *)
Theorem m_step_assigns_a_prefix (KW : Type) (batch_emissions : ndarray Z)
    (batch_posteriors : CategoricalHMMSuffStats (ndarray Q)) (kwargs : KW)
    (self : CategoricalHMM) :
  let out := m_step batch_emissions batch_posteriors kwargs self in
  (snd out = Ok tt /\
   exists stats v1 v2 v3,
     tree_map jnp_sum_axis0 batch_posteriors = Ok stats /\
     posterior_mode 1.0001 (initial_probs stats) = Ok v1 /\
     posterior_mode 1.0001 (trans_probs stats) = Ok v2 /\
     posterior_mode 1.1 (sum_x stats) = Ok v3 /\
     fst out = assigned3 self v1 v2 v3)
  \/
  (is_ok (snd out) = false /\
   _emission_probs (fst out) = _emission_probs self /\
   (fst out = self \/
    (exists v1, fst out = assigned1 self v1) \/
    (exists v1 v2, fst out = assigned2 self v1 v2)) /\
   (is_ok (tree_map jnp_sum_axis0 batch_posteriors) = false /\ fst out = self
    \/ is_ok (tree_map jnp_sum_axis0 batch_posteriors) = true)).
Proof.
  pose proof (m_step_cases batch_emissions batch_posteriors kwargs self) as H.
  destruct (tree_map jnp_sum_axis0 batch_posteriors) as [stats|e].
  2:{ right. rewrite H. cbn [fst snd is_ok].
      repeat split; [now left | now left]. }
  destruct (posterior_mode 1.0001 (initial_probs stats)) as [v1|e] eqn:E1.
  2:{ right. rewrite H. cbn [fst snd is_ok].
      repeat split; [now left | now right]. }
  destruct (posterior_mode 1.0001 (trans_probs stats)) as [v2|e] eqn:E2.
  2:{ right. rewrite H. cbn [fst snd is_ok].
      repeat split; [right; left; now exists v1 | now right]. }
  destruct (posterior_mode 1.1 (sum_x stats)) as [v3|e] eqn:E3.
  2:{ right. rewrite H. cbn [fst snd is_ok].
      repeat split; [right; right; now exists v1, v2 | now right]. }
  left. rewrite H. cbn [fst snd]. split; [reflexivity|].
  exists stats, v1, v2, v3. repeat split; assumption || reflexivity.
Qed.

(** ** Arrays: sums over the batch axis and Dirichlet modes *)

Section ArrayLemmas.

Lemma numel_app (s1 s2 : list nat) :
  numel (s1 ++ s2) = (numel s1 * numel s2)%nat.
Proof.
  induction s1 as [|n s1 IH]; simpl; [lia|]. rewrite IH. lia.
Qed.




(** Entry [j] of a sum over the leading axis. *)
Lemma sum_axis0_entry (B P j : nat) (d : list Q) :
  length d = (B * P)%nat -> (j < P)%nat ->
  nth j (sum_blocks P (chunks P B d)) 0
  = sum_upto B (fun b => nth (b * P + j) d 0).
Proof.
  intros Hd Hj. rewrite nth_sum_blocks by (auto using chunks_all_length).
  unfold sum_upto. rewrite chunks_map_nth, map_map. f_equal.
  apply map_ext. intros b. now apply nth_firstn_skipn.
Qed.

Lemma jnp_sum_axis0_shape (a : ndarray Q) (B : nat) (s : list nat) :
  has_shape a (B :: s) ->
  exists sa, jnp_sum_axis0 a = Ok sa /\ has_shape sa s /\
    forall j, (j < numel s)%nat ->
      nth j (data sa) 0 = sum_upto B (fun b => nth (b * numel s + j) (data a) 0).
Proof.
  intros [Hs Hwf]. unfold jnp_sum_axis0. rewrite Hs.
  unfold well_formed in Hwf. rewrite Hs in Hwf. cbn [numel fold_right] in Hwf.
  fold (numel s) in Hwf.
  eexists; split; [reflexivity|]. split; [split|]; cbn [shape data].
  - reflexivity.
  - unfold well_formed; cbn [shape data].
    apply sum_blocks_length, chunks_all_length. assumption.
  - intros j Hj. now apply sum_axis0_entry.
Qed.


Lemma mode_row_length (K : nat) (row : list Q) :
  length (mode_row K row) = length row.
Proof. unfold mode_row. apply length_map. Qed.

Lemma nth_mode_row (K i : nat) (row : list Q) :
  (i < length row)%nat ->
  nth i (mode_row K row) 0
  = (nth i row 0 - 1) / (sumQ row - inject_Z (Z.of_nat K)).
Proof.
  intros Hi. unfold mode_row.
  rewrite nth_indep with (d' :=
    (fun a => (a - 1) / (sumQ row - inject_Z (Z.of_nat K))) 0)
    by (now rewrite length_map).
  apply (map_nth (fun a => (a - 1) / (sumQ row - inject_Z (Z.of_nat K)))).
Qed.

Lemma tfd_Dirichlet_ok (conc : ndarray Q) (s' : list nat) (K : nat) :
  shape conc = s' ++ [K] -> (2 <= K)%nat ->
  tfd_Dirichlet conc = Ok {| concentration := conc |}.
Proof.
  unfold tfd_Dirichlet. intros -> HK. rewrite last_last.
  destruct (Nat.ltb_spec K 2); [lia|]. now destruct s'.
Qed.

(** Shape and entries of [tfd.Dirichlet(c + a).mode()] for an array whose
    last axis has length [K] and which holds [R] vectors. *)
Lemma posterior_mode_entry (c : Q) (a : ndarray Q) (s' : list nat) (K : nat) :
  has_shape a (s' ++ [K]) -> (2 <= K)%nat ->
  exists v, posterior_mode c a = Ok v /\ has_shape v (s' ++ [K]) /\
    forall r i, (r < numel s')%nat -> (i < K)%nat ->
      let alpha := fun j => c + nth (r * K + j) (data a) 0 in
      nth (r * K + i) (data v) 0
      = (alpha i - 1) / (sum_upto K alpha - inject_Z (Z.of_nat K)).
Proof.
  intros [Hs Hwf] HK2. unfold well_formed in Hwf.
  rewrite Hs, numel_app in Hwf. cbn [numel fold_right] in Hwf.
  rewrite Nat.mul_1_r in Hwf.
  unfold posterior_mode.
  rewrite (@tfd_Dirichlet_ok (scalar_add c a) s' K) by assumption.
  cbn [rbind].
  eexists; split; [reflexivity|].
  unfold Dirichlet_mode, scalar_add; cbn [concentration shape data].
  rewrite Hs, last_last, removelast_last.
  set (d := map (Qplus c) (data a)).
  assert (Hd : length d = (numel s' * K)%nat)
    by (unfold d; now rewrite length_map).
  assert (Hrows : Forall (fun b => length b = K)
                    (map (mode_row K) (chunks K (numel s') d))).
  { apply Forall_map.
    eapply Forall_impl; [|apply chunks_all_length; exact Hd].
    intros b Hb. now rewrite mode_row_length. }
  split; [split|].
  - reflexivity.
  - unfold well_formed; cbn [shape data].
    rewrite (length_concat_blocks Hrows), length_map, chunks_length.
    rewrite numel_app. cbn [numel fold_right]. lia.
  - intros r i Hr Hi. cbn [data].
    rewrite (nth_concat r 0 Hrows Hi).
    change (@nil Q) with (mode_row K []).
    rewrite (map_nth (mode_row K)), nth_chunks by assumption.
    set (row := firstn K (skipn (r * K) d)).
    assert (Hrow : length row = K).
    { unfold row. rewrite length_firstn, length_skipn. nia. }
    assert (Hnth : forall j, (j < K)%nat ->
              nth j row 0 = c + nth (r * K + j) (data a) 0).
    { intros j Hj. unfold row. rewrite nth_firstn_skipn by assumption.
      unfold d.
      rewrite nth_indep with (d' := Qplus c 0) by (rewrite length_map; nia).
      apply (map_nth (Qplus c)). }
    assert (Hsum : sumQ row
                   = sum_upto K (fun j => c + nth (r * K + j) (data a) 0)).
    { unfold sum_upto. f_equal.
      rewrite (list_map_nth row 0) at 1. rewrite Hrow.
      apply map_ext_in. intros j Hj. apply in_seq in Hj. apply Hnth. lia. }
    rewrite nth_mode_row by lia.
    rewrite Hnth by assumption. rewrite Hsum. reflexivity.
Qed.

End ArrayLemmas.

(** ** The M-step computes Dirichlet posterior modes *)

Section MStep.

Lemma inject_Z_succ (n : nat) :
  inject_Z (Z.of_nat (S n)) == inject_Z (Z.of_nat n) + 1.
Proof.
  rewrite Nat2Z.inj_succ. unfold Z.succ. now rewrite inject_Z_plus.
Qed.



Lemma posterior_mode_eq (c : Q) (a : ndarray Q) (s' : list nat) (K : nat) :
  shape a = s' ++ [K] -> (2 <= K)%nat ->
  posterior_mode c a
  = Ok (Array (s' ++ [K])
          (concat (map (mode_row K)
                     (chunks K (numel s') (map (Qplus c) (data a)))))).
Proof.
  intros Hs HK2. unfold posterior_mode.
  rewrite (@tfd_Dirichlet_ok (scalar_add c a) s' K) by assumption.
  cbn [rbind]. unfold Dirichlet_mode, scalar_add.
  cbn [concentration shape data].
  now rewrite Hs, last_last, removelast_last.
Qed.

(** A call that returns had an argument of rank at least one whose last
    axis holds at least two entries. *)
Lemma posterior_mode_rank (c : Q) (a v : ndarray Q) :
  posterior_mode c a = Ok v ->
  exists s' K, shape a = s' ++ [K] /\ (2 <= K)%nat.
Proof.
  unfold posterior_mode, tfd_Dirichlet, scalar_add; cbn [shape].
  destruct (shape a) as [|n s] eqn:Hs; [discriminate|].
  destruct (@exists_last _ (n :: s)) as (s' & K & E); [discriminate|].
  rewrite E, last_last.
  destruct (Nat.ltb_spec K 2); [discriminate|]. intros _.
  now exists s', K.
Qed.


Lemma tree_map_inv {X Y} (f : X -> result Y)
    (t : CategoricalHMMSuffStats X) (t' : CategoricalHMMSuffStats Y) :
  tree_map f t = Ok t' ->
  f (marginal_loglik t) = Ok (marginal_loglik t') /\
  f (initial_probs t) = Ok (initial_probs t') /\
  f (trans_probs t) = Ok (trans_probs t') /\
  f (sum_x t) = Ok (sum_x t').
Proof.
  unfold tree_map, rbind.
  destruct (f (marginal_loglik t)); [|discriminate].
  destruct (f (initial_probs t)); [|discriminate].
  destruct (f (trans_probs t)); [|discriminate].
  destruct (f (sum_x t)); [|discriminate].
  intros H; injection H as <-. cbn. auto.
Qed.

Lemma m_step_success_inv (KW : Type) (batch_emissions : ndarray Z)
    (batch_posteriors stats : CategoricalHMMSuffStats (ndarray Q))
    (kwargs : KW) (self self' : CategoricalHMM) :
  tree_map jnp_sum_axis0 batch_posteriors = Ok stats ->
  m_step batch_emissions batch_posteriors kwargs self = (self', Ok tt) ->
  exists v1 v2 v3,
    posterior_mode 1.0001 (initial_probs stats) = Ok v1 /\
    posterior_mode 1.0001 (trans_probs stats) = Ok v2 /\
    posterior_mode 1.1 (sum_x stats) = Ok v3 /\
    self' = assigned3 self v1 v2 v3.
Proof.
  intros Hs Hm.
  pose proof (m_step_cases batch_emissions batch_posteriors kwargs self) as H.
  rewrite Hs in H.
  destruct (posterior_mode 1.0001 (initial_probs stats)) as [v1|e];
    [|congruence].
  destruct (posterior_mode 1.0001 (trans_probs stats)) as [v2|e];
    [|congruence].
  destruct (posterior_mode 1.1 (sum_x stats)) as [v3|e]; [|congruence].
  exists v1, v2, v3. repeat split; congruence.
Qed.

End MStep.



(** Closed facts about concrete arrays of rationals. *)
Ltac forall_entries :=
  repeat (apply Forall_cons; [now vm_compute|]); apply Forall_nil.


Section PosteriorMode.

Lemma sum_upto_ext (n : nat) (f g : nat -> Q) :
  (forall j, (j < n)%nat -> f j = g j) -> sum_upto n f = sum_upto n g.
Proof.
  intros H. unfold sum_upto. f_equal. apply map_ext_in.
  intros j Hj. apply in_seq in Hj. apply H. lia.
Qed.


Lemma nth_nonneg (l : list Q) (n : nat) :
  Forall (fun x => 0 <= x) l -> 0 <= nth n l 0.
Proof.
  intros H; revert n; induction H as [|x l Hx _ IH]; intros [|n]; simpl;
    try apply Qle_refl; auto.
Qed.

Lemma sum_upto_nonneg (n : nat) (f : nat -> Q) :
  (forall b, 0 <= f b) -> 0 <= sum_upto n f.
Proof.
  intros H. apply sumQ_nonneg, Forall_map, Forall_forall. intros b _. apply H.
Qed.



End PosteriorMode.

Lemma has_shape_sum_axis0 (a : ndarray Q) (B : nat) (s : list nat) :
  has_shape a (B :: s) ->
  exists sa, jnp_sum_axis0 a = Ok sa /\ has_shape sa s.
Proof.
  intros H. destruct (@jnp_sum_axis0_shape a B s H) as (sa & E & Hs & _).
  now exists sa.
Qed.

Lemma has_shape_posterior_mode (c : Q) (a : ndarray Q) (s' : list nat)
    (K : nat) :
  has_shape a (s' ++ [K]) -> (2 <= K)%nat ->
  exists v, posterior_mode c a = Ok v /\ has_shape v (s' ++ [K]).
Proof.
  intros H HK. destruct (@posterior_mode_entry c a s' K H HK) as (v & E & Hs & _).
  now exists v.
Qed.




(** ** The M-step reduces the batch by an entrywise sum *)

Section BatchSum.

Lemma array_like_length (proto a : ndarray Q) :
  array_like proto a -> length (data a) = numel (shape proto).
Proof. intros [Hs Hw]. unfold well_formed in Hw. now rewrite Hs in Hw. Qed.

Lemma data_all_length (proto : ndarray Q) (l : list (ndarray Q)) :
  Forall (array_like proto) l ->
  Forall (fun b => length b = numel (shape proto)) (map (@data Q) l).
Proof.
  intros H. apply Forall_map. eapply Forall_impl; [|exact H].
  apply array_like_length.
Qed.

(** Summing a stack over the batch axis is summing its members. *)
Lemma jnp_sum_axis0_stack (proto : ndarray Q) (l : list (ndarray Q)) :
  Forall (array_like proto) l ->
  jnp_sum_axis0 (stack proto l) = Ok (sum_arrays proto l).
Proof.
  intros H. unfold jnp_sum_axis0, stack, sum_arrays. cbn [shape data].
  rewrite <- (length_map (@data Q) l).
  now rewrite (chunks_concat (data_all_length H)).
Qed.

Lemma Forall_record_like_fields
    (proto : CategoricalHMMSuffStats (ndarray Q))
    (l : list (CategoricalHMMSuffStats (ndarray Q))) :
  Forall (record_like proto) l ->
  Forall (array_like (marginal_loglik proto)) (map (@marginal_loglik _) l) /\
  Forall (array_like (initial_probs proto)) (map (@initial_probs _) l) /\
  Forall (array_like (trans_probs proto)) (map (@trans_probs _) l) /\
  Forall (array_like (sum_x proto)) (map (@sum_x _) l).
Proof.
  intros H. repeat split; apply Forall_map; (eapply Forall_impl; [|exact H]);
    intros t (H1 & H2 & H3 & H4); assumption.
Qed.

Lemma tree_map_sum_stack_stats
    (proto : CategoricalHMMSuffStats (ndarray Q))
    (l : list (CategoricalHMMSuffStats (ndarray Q))) :
  Forall (record_like proto) l ->
  tree_map jnp_sum_axis0 (stack_stats proto l) = Ok (sum_stats proto l).
Proof.
  intros H. destruct (Forall_record_like_fields H) as (H1 & H2 & H3 & H4).
  unfold tree_map, stack_stats, sum_stats.
  cbn [marginal_loglik initial_probs trans_probs sum_x].
  now rewrite !jnp_sum_axis0_stack by assumption.
Qed.

Lemma sum_arrays_perm (proto : ndarray Q) (l1 l2 : list (ndarray Q)) :
  Permutation l1 l2 -> sum_arrays proto l1 = sum_arrays proto l2.
Proof.
  intros H. unfold sum_arrays. f_equal.
  apply sum_blocks_perm. now apply Permutation_map.
Qed.

Lemma sum_stats_perm (proto : CategoricalHMMSuffStats (ndarray Q))
    (l1 l2 : list (CategoricalHMMSuffStats (ndarray Q))) :
  Permutation l1 l2 -> sum_stats proto l1 = sum_stats proto l2.
Proof.
  intros H. unfold sum_stats.
  f_equal; apply sum_arrays_perm; now apply Permutation_map.
Qed.

Lemma sum_blocks_pair (k : nat) (b1 b2 : list Q) :
  (length b2 <= k)%nat -> sum_blocks k [b1; b2] = zip_with Qplus b1 b2.
Proof.
  intros H. unfold sum_blocks. cbn [fold_right].
  now rewrite zip_with_Qplus_zeros.
Qed.

Lemma sum_arrays_app (proto : ndarray Q) (l1 l2 : list (ndarray Q)) :
  sum_arrays proto (l1 ++ l2)
  = sum_arrays proto [sum_arrays proto l1; sum_arrays proto l2].
Proof.
  unfold sum_arrays. f_equal. cbn [map data].
  rewrite map_app, sum_blocks_app.
  symmetry. apply sum_blocks_pair, sum_blocks_length_le.
Qed.

Lemma sum_stats_app (proto : CategoricalHMMSuffStats (ndarray Q))
    (l1 l2 : list (CategoricalHMMSuffStats (ndarray Q))) :
  sum_stats proto (l1 ++ l2)
  = sum_stats proto [sum_stats proto l1; sum_stats proto l2].
Proof.
  unfold sum_stats. cbn [map marginal_loglik initial_probs trans_probs sum_x].
  rewrite !map_app. f_equal; apply sum_arrays_app.
Qed.

Lemma array_like_sum_arrays (proto : ndarray Q) (l : list (ndarray Q)) :
  Forall (array_like proto) l -> array_like proto (sum_arrays proto l).
Proof.
  intros H. split; [reflexivity|]. unfold well_formed, sum_arrays.
  cbn [shape data]. apply sum_blocks_length, data_all_length, H.
Qed.

Lemma record_like_sum_stats (proto : CategoricalHMMSuffStats (ndarray Q))
    (l : list (CategoricalHMMSuffStats (ndarray Q))) :
  Forall (record_like proto) l -> record_like proto (sum_stats proto l).
Proof.
  intros H. destruct (Forall_record_like_fields H) as (H1 & H2 & H3 & H4).
  repeat split; apply array_like_sum_arrays; assumption.
Qed.

(** Adding two one-member batches entrywise and then summing over the
    batch axis is summing the two members. *)
Lemma jnp_sum_axis0_add_singletons (proto s : ndarray Q) :
  array_like proto s ->
  jnp_sum_axis0 (jnp_add (stack proto [s]) (stack proto [s]))
  = Ok (sum_arrays proto [s; s]).
Proof.
  intros H. pose proof (array_like_length H) as Hlen.
  unfold jnp_sum_axis0, jnp_add, stack, sum_arrays.
  cbn [shape data map concat length chunks]. rewrite app_nil_r.
  assert (Hz : length (zip_with Qplus (data s) (data s))
               = numel (shape proto))
    by (rewrite zip_with_length, Hlen; apply Nat.min_id).
  rewrite <- Hz at 2. rewrite firstn_all.
  do 2 f_equal. unfold sum_blocks. cbn [fold_right].
  rewrite !zip_with_Qplus_zeros by lia. reflexivity.
Qed.

Lemma tree_map_sum_add_singletons
    (proto s : CategoricalHMMSuffStats (ndarray Q)) :
  record_like proto s ->
  tree_map jnp_sum_axis0
    (add_stats (stack_stats proto [s]) (stack_stats proto [s]))
  = Ok (sum_stats proto [s; s]).
Proof.
  intros (H1 & H2 & H3 & H4).
  unfold tree_map, add_stats, stack_stats, sum_stats.
  cbn [marginal_loglik initial_probs trans_probs sum_x map].
  now rewrite !jnp_sum_axis0_add_singletons by assumption.
Qed.

(** [m_step] reads the batch only through its sum. *)
Lemma m_step_of_sum (KW : Type) (batch_emissions : ndarray Z)
    (bp bp' : CategoricalHMMSuffStats (ndarray Q)) (kwargs : KW)
    (self : CategoricalHMM) :
  tree_map jnp_sum_axis0 bp = tree_map jnp_sum_axis0 bp' ->
  m_step batch_emissions bp kwargs self
  = m_step batch_emissions bp' kwargs self.
Proof.
  intros H. unfold m_step, mbind, eval. now rewrite H.
Qed.

End BatchSum.

(** ** Sums over the batch axis in binary32 arithmetic *)

Section Float32Sums.

Lemma float32_add_zero_round (mx ex : Z) (lx : location) :
  Float32.add Float32.zero
    (binary_round_aux Float32.prec Float32.emax false mx ex lx)
  = binary_round_aux Float32.prec Float32.emax false mx ex lx.
Proof.
  unfold binary_round_aux.
  destruct (shr_fexp Float32.prec Float32.emax mx ex lx) as [mrs' e'].
  destruct (shr_fexp Float32.prec Float32.emax _ e' loc_Exact) as [mrs'' e''].
  destruct (shr_m mrs'') as [|m|m]; [reflexivity| |reflexivity].
  destruct (Z.leb e'' (Z.sub Float32.emax Float32.prec)); reflexivity.
Qed.

(** Accumulating a non-negative number twice from zero is doubling it. *)
Lemma float32_add_zero_double (x : Float32.float32) :
  SFleb Float32.zero x = true ->
  Float32.add (Float32.add Float32.zero x) x
  = Float32.add Float32.zero (Float32.add x x).
Proof.
  destruct x as [sg|sg| |sg m e].
  - destruct sg; reflexivity.
  - destruct sg; [discriminate|reflexivity].
  - discriminate.
  - destruct sg; [discriminate|]. intros _.
    change (Float32.add Float32.zero (S754_finite false m e))
      with (S754_finite false m e).
    assert (E : exists mz ez,
               Float32.add (S754_finite false m e) (S754_finite false m e)
               = binary_round_aux Float32.prec Float32.emax false
                   (Zpos mz) ez loc_Exact).
    { unfold Float32.add, SFadd. cbn [cond_Zopp Z.add].
      unfold binary_normalize, binary_round.
      destruct (shl_align _ _ _) as [mz ez]. now exists mz, ez. }
    destruct E as (mz & ez & ->). symmetry. apply float32_add_zero_round.
Qed.

(** Addition in binary32 is commutative. *)
Lemma float32_add_comm (x y : Float32.float32) :
  Float32.add x y = Float32.add y x.
Proof.
  destruct x as [sx|sx| |sx mx ex], y as [sy|sy| |sy my ey];
    try reflexivity; try (destruct sx, sy; reflexivity).
  unfold Float32.add, SFadd. rewrite (Z.min_comm ex ey). f_equal.
  apply Z.add_comm.
Qed.

Lemma float32_add_zero_swap (x y : Float32.float32) :
  Float32.add (Float32.add Float32.zero x) y
  = Float32.add (Float32.add Float32.zero y) x.
Proof.
  destruct x as [sx|sx| |sx mx ex], y as [sy|sy| |sy my ey];
    try reflexivity; try (destruct sx, sy; reflexivity);
    try (destruct sx; reflexivity); try (destruct sy; reflexivity).
  change (Float32.add Float32.zero (S754_finite sx mx ex))
    with (S754_finite sx mx ex).
  change (Float32.add Float32.zero (S754_finite sy my ey))
    with (S754_finite sy my ey).
  apply float32_add_comm.
Qed.

Lemma float32_zip_double (d : list Float32.float32) :
  Forall (fun x => SFleb Float32.zero x = true) d ->
  zip_with Float32.add
    (zip_with Float32.add (repeat Float32.zero (length d)) d) d
  = zip_with Float32.add (repeat Float32.zero (length d))
      (zip_with Float32.add d d).
Proof.
  induction 1 as [|x d Hx _ IH]; [reflexivity|].
  cbn [length repeat zip_with]. f_equal; [|exact IH].
  now apply float32_add_zero_double.
Qed.

Lemma float32_zip_swap (d1 d2 : list Float32.float32) :
  length d1 = length d2 ->
  zip_with Float32.add
    (zip_with Float32.add (repeat Float32.zero (length d1)) d1) d2
  = zip_with Float32.add
      (zip_with Float32.add (repeat Float32.zero (length d1)) d2) d1.
Proof.
  revert d2; induction d1 as [|x d1 IH]; intros [|y d2] H;
    try discriminate; [reflexivity|].
  cbn [length repeat zip_with]. f_equal.
  - apply float32_add_zero_swap.
  - apply IH. now injection H.
Qed.

(** The sum over the batch axis of a stack of arrays. *)
Lemma float32_sum_axis0_stack (proto : ndarray Float32.float32)
    (l : list (ndarray Float32.float32)) :
  Forall (Float32.array_like proto) l ->
  Float32.jnp_sum_axis0 (Float32.stack proto l)
  = Ok (Array (shape proto)
          (Float32.sum_blocks (numel (shape proto))
             (map (@data Float32.float32) l))).
Proof.
  intros H. unfold Float32.jnp_sum_axis0, Float32.stack. cbn [shape data].
  do 2 f_equal. rewrite <- (length_map (@data Float32.float32) l).
  f_equal. apply chunks_concat. apply Forall_map.
  eapply Forall_impl; [|exact H].
  intros a [Hs Hw]. unfold well_formed in Hw. now rewrite Hs in Hw.
Qed.

(** The sum over the batch axis of the entrywise sum of two one-record
    batches. *)
Lemma float32_sum_axis0_added (proto a : ndarray Float32.float32) :
  Float32.array_like proto a ->
  Float32.jnp_sum_axis0
    (Float32.jnp_add (Float32.stack proto [a]) (Float32.stack proto [a]))
  = Ok (Array (shape proto)
          (zip_with Float32.add (repeat Float32.zero (length (data a)))
             (zip_with Float32.add (data a) (data a)))).
Proof.
  intros [Hs Hw]. unfold well_formed in Hw. rewrite Hs in Hw.
  unfold Float32.jnp_sum_axis0, Float32.jnp_add, Float32.stack.
  cbn [shape data map concat length chunks]. rewrite app_nil_r.
  unfold Float32.sum_blocks. cbn [fold_left].
  rewrite firstn_all2
    by (rewrite zip_with_length, Nat.min_id, Hw; apply Nat.le_refl).
  now rewrite Hw.
Qed.

Lemma float32_sum_axis0_twice (proto a : ndarray Float32.float32) :
  Float32.array_like proto a -> Float32.nonneg a ->
  Float32.jnp_sum_axis0 (Float32.stack proto [a; a])
  = Float32.jnp_sum_axis0
      (Float32.jnp_add (Float32.stack proto [a]) (Float32.stack proto [a])).
Proof.
  intros Ha Hn. rewrite (float32_sum_axis0_added Ha).
  rewrite (@float32_sum_axis0_stack proto [a; a])
    by (apply Forall_cons; [exact Ha|apply Forall_cons; [exact Ha|constructor]]).
  destruct Ha as [Hs Hw]. unfold well_formed in Hw. rewrite Hs in Hw.
  unfold Float32.sum_blocks. cbn [map fold_left]. rewrite <- Hw.
  now rewrite (float32_zip_double Hn).
Qed.

Lemma float32_sum_axis0_swap (proto a b : ndarray Float32.float32) :
  Float32.array_like proto a -> Float32.array_like proto b ->
  Float32.jnp_sum_axis0 (Float32.stack proto [a; b])
  = Float32.jnp_sum_axis0 (Float32.stack proto [b; a]).
Proof.
  intros Ha Hb.
  rewrite !float32_sum_axis0_stack
    by (repeat (apply Forall_cons; [assumption|]); constructor).
  destruct Ha as [Hsa Hwa], Hb as [Hsb Hwb]. unfold well_formed in Hwa, Hwb.
  rewrite Hsa in Hwa. rewrite Hsb in Hwb.
  unfold Float32.sum_blocks. cbn [map fold_left]. rewrite <- Hwa.
  rewrite (@float32_zip_swap (data a) (data b)) by congruence.
  reflexivity.
Qed.

(** [Float32.m_step] reads the batch only through the computed sums. *)
Lemma float32_m_step_of_sum (KW : Type) (batch_emissions : ndarray Z)
    (bp bp' : CategoricalHMMSuffStats (ndarray Float32.float32))
    (kwargs : KW) (self : Float32.CategoricalHMM) :
  tree_map Float32.jnp_sum_axis0 bp = tree_map Float32.jnp_sum_axis0 bp' ->
  Float32.m_step batch_emissions bp kwargs self
  = Float32.m_step batch_emissions bp' kwargs self.
Proof. intros H. unfold Float32.m_step. now rewrite H. Qed.

(** In binary32 arithmetic a batch of two records gives the same result in
    either order. *)
Lemma float32_m_step_pair_swap (KW : Type) (batch_emissions : ndarray Z)
    (kwargs : KW) (self : Float32.CategoricalHMM)
    (proto s t : CategoricalHMMSuffStats (ndarray Float32.float32)) :
  Float32.record_like proto s -> Float32.record_like proto t ->
  Float32.m_step batch_emissions (Float32.stack_stats proto [s; t]) kwargs self
  = Float32.m_step batch_emissions (Float32.stack_stats proto [t; s])
      kwargs self.
Proof.
  intros (S1 & S2 & S3 & S4) (T1 & T2 & T3 & T4).
  apply float32_m_step_of_sum. unfold tree_map, Float32.stack_stats.
  cbn [marginal_loglik initial_probs trans_probs sum_x map].
  now rewrite (float32_sum_axis0_swap S1 T1), (float32_sum_axis0_swap S2 T2),
    (float32_sum_axis0_swap S3 T3), (float32_sum_axis0_swap S4 T4).
Qed.

(** In binary32 arithmetic a batch of two identical records with
    non-negative counts gives the same result as the entrywise sum of two
    one-record batches. *)
Lemma float32_m_step_two_identical (KW : Type) (batch_emissions : ndarray Z)
    (kwargs : KW) (self : Float32.CategoricalHMM)
    (proto s : CategoricalHMMSuffStats (ndarray Float32.float32)) :
  Float32.record_like proto s ->
  Float32.nonneg (initial_probs s) -> Float32.nonneg (trans_probs s) ->
  Float32.nonneg (sum_x s) ->
  Float32.m_step batch_emissions (Float32.stack_stats proto [s; s]) kwargs self
  = Float32.m_step batch_emissions
      (Float32.add_stats (Float32.stack_stats proto [s])
                         (Float32.stack_stats proto [s])) kwargs self.
Proof.
  intros (S1 & S2 & S3 & S4) N2 N3 N4.
  unfold Float32.m_step, tree_map, Float32.stack_stats, Float32.add_stats.
  cbn [marginal_loglik initial_probs trans_probs sum_x map].
  rewrite <- (float32_sum_axis0_twice S2 N2),
    <- (float32_sum_axis0_twice S3 N3), <- (float32_sum_axis0_twice S4 N4).
  rewrite (float32_sum_axis0_added S1).
  rewrite !float32_sum_axis0_stack
    by (repeat (apply Forall_cons; [assumption|]); constructor).
  reflexivity.
Qed.

End Float32Sums.

(** C5, as stated, fails in binary32 arithmetic, where the sum over the
    batch axis depends on the order of the batch: the records of one
    sequence with a transition count of [2^24] and of two sequences with
    unit counts, stacked in this order and in the reverse order, give two
    calls of [m_step] that succeed and store different transition
    matrices; so does the first batch regrouped into the sum of its
    first record and the sum of the other two.  (One batch being the
    reverse of the other, accumulating from the other end exchanges the two
    results.) *)
Lemma m_step_float32_depends_on_batch_order :
  let l1 := [Float32.record_large; Float32.record_unit; Float32.record_unit] in
  let l2 := [Float32.record_unit; Float32.record_unit; Float32.record_large] in
  let regrouped :=
    [Float32.sum_stats Float32.record_unit [Float32.record_large];
     Float32.sum_stats Float32.record_unit
       [Float32.record_unit; Float32.record_unit]] in
  let out1 := Float32.m_step Float32.batch
                (Float32.stack_stats Float32.record_unit l1) tt Float32.model in
  let out2 := Float32.m_step Float32.batch_reversed
                (Float32.stack_stats Float32.record_unit l2) tt Float32.model in
  let out3 := Float32.m_step Float32.batch
                (Float32.stack_stats Float32.record_unit regrouped) tt
                Float32.model in
  Permutation l1 l2 /\ l2 = rev l1 /\
  snd out1 = Ok tt /\ snd out2 = Ok tt /\ snd out3 = Ok tt /\
  Float32.value (Float32._transition_matrix (fst out1))
  <> Float32.value (Float32._transition_matrix (fst out2)) /\
  Float32.value (Float32._transition_matrix (fst out1))
  <> Float32.value (Float32._transition_matrix (fst out3)) /\
  out1 <> out2 /\ out1 <> out3.
Proof.
  cbv zeta. split.
  { apply Permutation_trans
      with [Float32.record_unit; Float32.record_large; Float32.record_unit].
    - apply perm_swap.
    - apply perm_skip, perm_swap. }
  split; [reflexivity|].
  split; [vm_compute; reflexivity|]. split; [vm_compute; reflexivity|].
  split; [vm_compute; reflexivity|].
  match goal with
  | |- ?v1 <> ?v2 /\ ?v1 <> ?v3 /\ _ =>
      assert (D2 : v1 <> v2) by (vm_compute; discriminate);
      assert (D3 : v1 <> v3) by (vm_compute; discriminate)
  end.
  split; [exact D2|]. split; [exact D3|].
  split; intros H; [apply D2|apply D3]; now rewrite H.
Qed.

(** C5, amended.  The result of [m_step] depends on the batch of statistics
    only through the sums that the reduction over the batch axis computes:
    two batches with the same computed sums give the same result.  In
    binary32 arithmetic, where the reduction is commutative but not
    associative, a batch of two identical records with non-negative counts
    gives the same result as the entrywise sum of two one-record batches,
    and a batch of two records gives the same result in either order.  In
    exact arithmetic, where the reduction is associative as well, every
    permuted batch gives the same result, and so does a batch regrouped
    into the sums of two sub-batches. *)
Theorem m_step_depends_only_on_batch_sum (KW : Type)
    (batch_emissions : ndarray Z) (kwargs : KW) (self : CategoricalHMM)
    (proto s : CategoricalHMMSuffStats (ndarray Q))
    (l1 l2 : list (CategoricalHMMSuffStats (ndarray Q))) :
  Forall (record_like proto) l1 ->
  Forall (record_like proto) l2 ->
  record_like proto s ->
  (forall (bp bp' : CategoricalHMMSuffStats (ndarray Float32.float32))
          (self32 : Float32.CategoricalHMM),
     tree_map Float32.jnp_sum_axis0 bp = tree_map Float32.jnp_sum_axis0 bp' ->
     Float32.m_step batch_emissions bp kwargs self32
     = Float32.m_step batch_emissions bp' kwargs self32) /\
  (forall (proto32 s32 : CategoricalHMMSuffStats (ndarray Float32.float32))
          (self32 : Float32.CategoricalHMM),
     Float32.record_like proto32 s32 ->
     Float32.nonneg (initial_probs s32) ->
     Float32.nonneg (trans_probs s32) ->
     Float32.nonneg (sum_x s32) ->
     Float32.m_step batch_emissions
       (Float32.stack_stats proto32 [s32; s32]) kwargs self32
     = Float32.m_step batch_emissions
         (Float32.add_stats (Float32.stack_stats proto32 [s32])
                            (Float32.stack_stats proto32 [s32]))
         kwargs self32) /\
  (forall (proto32 s32 t32 : CategoricalHMMSuffStats (ndarray Float32.float32))
          (self32 : Float32.CategoricalHMM),
     Float32.record_like proto32 s32 -> Float32.record_like proto32 t32 ->
     Float32.m_step batch_emissions
       (Float32.stack_stats proto32 [s32; t32]) kwargs self32
     = Float32.m_step batch_emissions
         (Float32.stack_stats proto32 [t32; s32]) kwargs self32) /\
  (forall bp bp',
     tree_map jnp_sum_axis0 bp = tree_map jnp_sum_axis0 bp' ->
     m_step batch_emissions bp kwargs self
     = m_step batch_emissions bp' kwargs self) /\
  tree_map jnp_sum_axis0 (stack_stats proto l1) = Ok (sum_stats proto l1) /\
  m_step batch_emissions (stack_stats proto [s; s]) kwargs self
  = m_step batch_emissions
      (add_stats (stack_stats proto [s]) (stack_stats proto [s])) kwargs self /\
  (Permutation l1 l2 ->
   m_step batch_emissions (stack_stats proto l1) kwargs self
   = m_step batch_emissions (stack_stats proto l2) kwargs self) /\
  m_step batch_emissions (stack_stats proto (l1 ++ l2)) kwargs self
  = m_step batch_emissions
      (stack_stats proto [sum_stats proto l1; sum_stats proto l2]) kwargs self.
Proof.
  intros H1 H2 Hs.
  split; [intros bp bp' self32; apply float32_m_step_of_sum|].
  split; [intros proto32 s32 self32; apply float32_m_step_two_identical|].
  split; [intros proto32 s32 t32 self32; apply float32_m_step_pair_swap|].
  split; [intros bp bp'; apply m_step_of_sum|].
  split; [now apply tree_map_sum_stack_stats|].
  split; [|split].
  - apply m_step_of_sum.
    rewrite tree_map_sum_add_singletons by assumption.
    apply tree_map_sum_stack_stats.
    apply Forall_cons; [exact Hs|].
    apply Forall_cons; [exact Hs|apply Forall_nil].
  - intros Hperm. apply m_step_of_sum.
    rewrite !tree_map_sum_stack_stats by assumption.
    f_equal. now apply sum_stats_perm.
  - apply m_step_of_sum.
    rewrite !tree_map_sum_stack_stats.
    + f_equal. apply sum_stats_app.
    + apply Forall_cons; [now apply record_like_sum_stats|].
      apply Forall_cons; [now apply record_like_sum_stats|apply Forall_nil].
    + apply Forall_app. now split.
Qed.

Lemma m_step_depends_only_on_batch_sum_witness :
  Permutation [Instances.record1; Instances.record2]
              [Instances.record2; Instances.record1] /\
  m_step Instances.batch
    (stack_stats Instances.record1 [Instances.record1; Instances.record2])
    tt Instances.model
  = m_step Instances.batch
      (stack_stats Instances.record1 [Instances.record2; Instances.record1])
      tt Instances.model.
Proof.
  assert (R1 : record_like Instances.record1 Instances.record1)
    by (repeat split).
  assert (R2 : record_like Instances.record1 Instances.record2)
    by (repeat split).
  split; [apply perm_swap|].
  apply (@m_step_depends_only_on_batch_sum unit Instances.batch tt
           Instances.model Instances.record1 Instances.record1
           [Instances.record1; Instances.record2]
           [Instances.record2; Instances.record1]).
  - repeat constructor; assumption.
  - repeat constructor; assumption.
  - exact R1.
  - apply perm_swap.
Defined.

(** ** The implementations of [Instances] meet the contracts *)

Section InstancesMeetContracts.

Lemma has_shape_full (s : list nat) (v : Q) :
  has_shape (Instances.full s v) s.
Proof.
  split; [reflexivity|]. unfold well_formed, Instances.full; cbn [shape data].
  apply repeat_length.
Qed.

Lemma shape_at_0 {A} (a : ndarray A) (n : nat) (s : list nat) :
  shape a = n :: s -> shape_at a 0 = Ok n.
Proof. unfold shape_at. now intros ->. Qed.

Lemma shape_at_1 {A} (a : ndarray A) (n0 n : nat) (s : list nat) :
  shape a = n0 :: n :: s -> shape_at a 1 = Ok n.
Proof. unfold shape_at. now intros ->. Qed.

Lemma shape_at_2 {A} (a : ndarray A) (n0 n1 n : nat) (s : list nat) :
  shape a = n0 :: n1 :: n :: s -> shape_at a 2 = Ok n.
Proof. unfold shape_at. now intros ->. Qed.

Lemma sumQ_repeat (v : Q) (n : nat) :
  sumQ (repeat v n) == inject_Z (Z.of_nat n) * v.
Proof.
  induction n as [|n IH]; [cbn; ring|].
  cbn [repeat sumQ fold_right]. fold (sumQ (repeat v n)).
  rewrite IH, inject_Z_succ. ring.
Qed.

Lemma on_simplex_uniform (s : list nat) (n : nat) :
  (0 < n)%nat ->
  on_simplex (Instances.full (s ++ [n]) (1 / inject_Z (Z.of_nat n))).
Proof.
  intros Hn.
  assert (Hq : 0 < inject_Z (Z.of_nat n)).
  { change 0 with (inject_Z 0). rewrite <- Zlt_Qlt. lia. }
  split.
  - unfold Instances.full; cbn [data]. apply Forall_forall.
    intros x Hx. apply repeat_spec in Hx. subst x.
    apply Qle_shift_div_l; [exact Hq|]. lra.
  - unfold rows, Instances.full; cbn [shape data].
    rewrite last_last, removelast_last, numel_app.
    cbn [numel fold_right]. rewrite Nat.mul_1_r, chunks_repeat.
    apply Forall_forall. intros r Hr. apply repeat_spec in Hr. subst r.
    rewrite sumQ_repeat. field. lra.
Qed.

Lemma base_meets_contract : BaseHMM_contract Instances.base.
Proof.
  constructor.
  - intros ip tm ps H. cbn in H. injection H as <-. now split.
  - reflexivity.
  - intros m K D C ((Hs & _) & _). cbn. now apply shape_at_0 with (s := []).
  - intros m K D C (_ & _ & (Hs & _)). cbn.
    now apply shape_at_1 with (n0 := K) (s := [C]).
  - intros m K D C x T ((Hs & _) & _) (Hx & _). cbn.
    rewrite (@shape_at_0 _ x T [D] Hx).
    rewrite (@shape_at_0 _ _ K [] Hs). cbn [rbind].
    eexists; split; [reflexivity|]. apply has_shape_full.
Qed.

Lemma inference_meets_contract : HMMInference_contract Instances.inference.
Proof.
  constructor.
  - intros ip tm ll K T _ _ (Hs & _). cbn. rewrite Hs.
    eexists; split; [reflexivity|]. cbn [fst snd].
    split; apply has_shape_full.
  - intros ip tm ll p K T _ (Hs & _) _ _. cbn. rewrite Hs.
    eexists; split; [reflexivity|]. apply has_shape_full.
Qed.

Lemma random_meets_contract : JaxRandom_contract Instances.random.
Proof.
  constructor. intros key alpha n s (Hs & Hw) Hn. cbn.
  unfold well_formed in Hw. rewrite Hs in Hw. cbn in Hw.
  rewrite Nat.mul_1_r in Hw. rewrite Hw.
  eexists; split; [reflexivity|].
  split; [apply has_shape_full | now apply on_simplex_uniform].
Qed.

End InstancesMeetContracts.

(** ** Random initialisation *)

Lemma has_shape_jnp_ones (n : nat) : has_shape (jnp_ones n) [n].
Proof.
  split; [reflexivity|]. unfold well_formed, jnp_ones; cbn.
  rewrite repeat_length. lia.
Qed.

(** The sum of the [r]-th vector along the last axis. *)
Lemma sumQ_block (K R r : nat) (d : list Q) :
  length d = (R * K)%nat -> (r < R)%nat ->
  sumQ (firstn K (skipn (r * K) d))
  = sum_upto K (fun j => nth (r * K + j) d 0).
Proof.
  intros Hd Hr. set (row := firstn K (skipn (r * K) d)).
  assert (Hrow : length row = K)
    by (unfold row; rewrite length_firstn, length_skipn; nia).
  unfold sum_upto. f_equal.
  rewrite (list_map_nth row 0) at 1. rewrite Hrow.
  apply map_ext_in. intros j Hj. apply in_seq in Hj.
  unfold row. apply nth_firstn_skipn. lia.
Qed.

Lemma on_simplex_vectors (a : ndarray Q) (s' : list nat) (K : nat) :
  has_shape a (s' ++ [K]) -> on_simplex a ->
  forall r, (r < numel s')%nat ->
    (forall j, 0 <= nth (r * K + j) (data a) 0) /\
    sum_upto K (fun j => nth (r * K + j) (data a) 0) == 1.
Proof.
  intros [Hs Hw] [Hnn Hrows] r Hr. unfold well_formed in Hw.
  rewrite Hs, numel_app in Hw. cbn [numel fold_right] in Hw.
  rewrite Nat.mul_1_r in Hw.
  split; [intros j; now apply nth_nonneg|].
  unfold rows in Hrows. rewrite Hs, last_last, removelast_last in Hrows.
  rewrite Forall_forall in Hrows.
  rewrite <- (@sumQ_block K (numel s') r (data a) Hw Hr).
  rewrite <- (@nth_chunks _ K (numel s') r (data a) Hr).
  apply Hrows, nth_In. now rewrite chunks_length.
Qed.

Lemma stochastic_model_of_simplex (m : CategoricalHMM) (K D C : nat) :
  model_dims m K D C ->
  on_simplex (value (_initial_probs m)) ->
  on_simplex (value (_transition_matrix m)) ->
  on_simplex (value (_emission_probs m)) ->
  stochastic_model m K D C.
Proof.
  intros (Hip & Htm & Hep) P1 P2 P3. unfold stochastic_model. cbn zeta.
  split; [|split].
  - destruct (@on_simplex_vectors _ [] K Hip P1 0%nat) as [Hnn Hsum];
      [cbn; lia|].
    unfold get. rewrite (proj1 Hip). cbn [flat_index numel fold_right].
    split.
    + intros i. specialize (Hnn i).
      now replace (i * 1 + 0)%nat with (0 * K + i)%nat by lia.
    + rewrite (@sum_upto_ext K _
                 (fun j => nth (0 * K + j) (data (value (_initial_probs m))) 0));
        [exact Hsum|].
      intros i _. f_equal. lia.
  - intros k Hk.
    destruct (@on_simplex_vectors _ [K] K Htm P2 k) as [Hnn Hsum];
      [cbn; lia|].
    unfold get. rewrite (proj1 Htm). cbn [flat_index numel fold_right].
    split.
    + intros j. specialize (Hnn j).
      now replace (k * (K * 1) + (j * 1 + 0))%nat with (k * K + j)%nat by lia.
    + rewrite (@sum_upto_ext K _
                 (fun j => nth (k * K + j)
                             (data (value (_transition_matrix m))) 0));
        [exact Hsum|].
      intros j _. f_equal. lia.
  - intros k d Hk Hd.
    destruct (@on_simplex_vectors _ [K; D] C Hep P3 (k * D + d)) as [Hnn Hsum];
      [cbn [numel fold_right]; nia|].
    unfold get. rewrite (proj1 Hep). cbn [flat_index numel fold_right].
    split.
    + intros i. specialize (Hnn i).
      now replace (k * (D * (C * 1)) + (d * (C * 1) + (i * 1 + 0)))%nat
        with ((k * D + d) * C + i)%nat by lia.
    + rewrite (@sum_upto_ext C _
                 (fun i => nth ((k * D + d) * C + i)
                             (data (value (_emission_probs m))) 0));
        [exact Hsum|].
      intros i _. f_equal. lia.
Qed.

(** C8.  [random_initialization] is a function of the key and the
    dimensions, and for at least one state and one class the model it
    returns is valid: the initial distribution, every row of the transition
    matrix and every (state, channel) slice of the emission tensor are
    non-negative and sum to one. *)
Theorem random_initialization_valid (base : BaseHMM) (random : JaxRandom)
    (base_ok : BaseHMM_contract base) (random_ok : JaxRandom_contract random)
    (key : PRNGKey) (num_states num_emissions num_classes : nat) :
  (0 < num_states)%nat -> (0 < num_classes)%nat ->
  (forall key' : PRNGKey, key' = key ->
     random_initialization key' num_states num_emissions num_classes
     = random_initialization key num_states num_emissions num_classes) /\
  exists m,
    random_initialization key num_states num_emissions num_classes = Ok m /\
    model_dims m num_states num_emissions num_classes /\
    stochastic_model m num_states num_emissions num_classes.
Proof.
  intros HK HC. split; [now intros key' ->|].
  unfold random_initialization.
  destruct (jr_split3 key) as [[key1 key2] key3].
  destruct (@jr_dirichlet_simplex _ random_ok key1 (jnp_ones num_states)
              num_states [] (has_shape_jnp_ones _) HK) as (ip & -> & S1 & P1).
  destruct (@jr_dirichlet_simplex _ random_ok key2 (jnp_ones num_states)
              num_states [num_states] (has_shape_jnp_ones _) HK)
    as (tm & -> & S2 & P2).
  destruct (@jr_dirichlet_simplex _ random_ok key3 (jnp_ones num_classes)
              num_classes [num_states; num_emissions]
              (has_shape_jnp_ones _) HC) as (ep & -> & S3 & P3).
  cbn [app] in S1, S2, S3. cbn [rbind].
  pose proof (@BaseHMM_init_accepts _ base_ok ip tm num_states S1 S2 P1 P2)
    as Hacc.
  unfold CategoricalHMM_init.
  destruct (BaseHMM_init ip tm) as [ps|e] eqn:Eb; [|discriminate].
  destruct (@BaseHMM_init_stores _ base_ok ip tm ps Eb) as [V1 V2].
  cbn [rbind]. unfold ndim. rewrite (proj1 S3). cbn [length Nat.eqb].
  eexists; split; [reflexivity|].
  assert (Hdims : model_dims
            {| _initial_probs := fst ps; _transition_matrix := snd ps;
               _emission_probs :=
                 {| value := ep; bijector := Invert SoftmaxCentered |} |}
            num_states num_emissions num_classes).
  { unfold model_dims.
    cbn [_initial_probs _transition_matrix _emission_probs value].
    rewrite V1, V2. exact (conj S1 (conj S2 S3)). }
  split; [exact Hdims|].
  apply stochastic_model_of_simplex; [exact Hdims| | |];
    cbn [_initial_probs _transition_matrix _emission_probs value];
    rewrite ?V1, ?V2; assumption.
Qed.

Lemma random_initialization_valid_witness :
  exists m,
    random_initialization (base := Instances.base) (random := Instances.random)
      5%nat 2 1 3 = Ok m /\
    stochastic_model m 2 1 3.
Proof.
  destruct (@random_initialization_valid Instances.base Instances.random
              base_meets_contract random_meets_contract 5%nat 2%nat 1%nat 3%nat)
    as (_ & m & Hm & _ & Hsim); [lia | lia |].
  exists m. split; assumption.
Defined.

(** ** The E-step: one-hot encoding and the contraction over time *)

Section Einsum.

Lemma zip_with_map {X Y V W} (f : Y -> V -> W) (g : X -> Y) (h : X -> V)
    (l : list X) :
  zip_with f (map g l) (map h l) = map (fun x => f (g x) (h x)) l.
Proof. induction l as [|x l IH]; simpl; [reflexivity|]. now rewrite IH. Qed.

Lemma outer_length (u v : list Q) :
  length (outer u v) = (length u * length v)%nat.
Proof.
  unfold outer. induction u as [|x u IH]; simpl; [reflexivity|].
  now rewrite length_app, length_map, IH.
Qed.

(** Entry [(k, j)] of an outer product. *)
Lemma nth_outer (u v : list Q) (k j : nat) :
  (k < length u)%nat -> (j < length v)%nat ->
  nth (k * length v + j) (outer u v) 0 = nth k u 0 * nth j v 0.
Proof.
  intros Hk Hj. unfold outer. rewrite flat_map_concat_map.
  rewrite (@nth_concat _ (length v)).
  - rewrite nth_indep with (d' := (fun x => map (Qmult x) v) 0)
      by (now rewrite length_map).
    rewrite (map_nth (fun x => map (Qmult x) v)).
    rewrite nth_indep with (d' := Qmult (nth k u 0) 0)
      by (now rewrite length_map).
    apply (map_nth (Qmult (nth k u 0))).
  - apply Forall_map, Forall_forall. intros x _. apply length_map.
  - assumption.
Qed.

Lemma one_hot_row_length (C : nat) (x : Z) : length (one_hot_row C x) = C.
Proof. unfold one_hot_row. now rewrite length_map, length_seq. Qed.

Lemma nth_one_hot_row (C i : nat) (x : Z) :
  (i < C)%nat ->
  nth i (one_hot_row C x) 0 = if (x =? Z.of_nat i)%Z then 1 else 0.
Proof.
  intros Hi. unfold one_hot_row.
  rewrite nth_indep
    with (d' := (fun i => if (x =? Z.of_nat i)%Z then 1 else 0) 0%nat)
    by (now rewrite length_map, length_seq).
  rewrite (map_nth (fun i => if (x =? Z.of_nat i)%Z then 1 else 0)).
  now rewrite seq_nth.
Qed.

Lemma one_hot_data_length (x : ndarray Z) (C : nat) :
  length (data (one_hot x C)) = (length (data x) * C)%nat.
Proof.
  unfold one_hot; cbn [data]. rewrite flat_map_concat_map.
  rewrite (@length_concat_blocks _ C), length_map; [reflexivity|].
  apply Forall_map, Forall_forall. intros v _. apply one_hot_row_length.
Qed.

(** Entry [r * C + i] of a one-hot encoding: the indicator that the [r]-th
    observation is class [i]. *)
Lemma nth_one_hot (x : ndarray Z) (C r i : nat) :
  (r < length (data x))%nat -> (i < C)%nat ->
  nth (r * C + i) (data (one_hot x C)) 0
  = if (nth r (data x) 0%Z =? Z.of_nat i)%Z then 1 else 0.
Proof.
  intros Hr Hi. unfold one_hot; cbn [data]. rewrite flat_map_concat_map.
  rewrite (@nth_concat _ C).
  - rewrite nth_indep with (d' := one_hot_row C 0%Z)
      by (now rewrite length_map).
    rewrite (map_nth (one_hot_row C)). now apply nth_one_hot_row.
  - apply Forall_map, Forall_forall. intros v _. apply one_hot_row_length.
  - assumption.
Qed.

Lemma has_shape_one_hot (x : ndarray Z) (s : list nat) (C : nat) :
  has_shape x s -> has_shape (one_hot x C) (s ++ [C]).
Proof.
  intros [Hs Hw]. split.
  - unfold one_hot; cbn [shape]. now rewrite Hs.
  - unfold well_formed. rewrite one_hot_data_length.
    unfold one_hot; cbn [shape]. rewrite numel_app, Hw.
    cbn [numel fold_right]. lia.
Qed.

(** The contraction [einsum("tk, tdi->kdi")]: shape and entries. *)
Lemma einsum_tk_tdi_entry (a b : ndarray Q) (T K D C : nat) :
  has_shape a [T; K] -> has_shape b [T; D; C] ->
  exists e, einsum_tk_tdi a b = Ok e /\ has_shape e [K; D; C] /\
    forall k j, (k < K)%nat -> (j < D * C)%nat ->
      nth (k * (D * C) + j) (data e) 0
      = sum_upto T (fun t => nth (t * K + k) (data a) 0
                             * nth (t * (D * C) + j) (data b) 0).
Proof.
  intros [Has Haw] [Hbs Hbw]. unfold well_formed in Haw, Hbw.
  rewrite Has in Haw. rewrite Hbs in Hbw. cbn [numel fold_right] in Haw, Hbw.
  assert (Ha : length (data a) = (T * K)%nat) by lia.
  assert (Hb : length (data b) = (T * (D * C))%nat) by lia.
  clear Haw Hbw.
  unfold einsum_tk_tdi. rewrite Has, Hbs, Nat.eqb_refl.
  eexists; split; [reflexivity|].
  set (blocks := zip_with outer (chunks K T (data a))
                   (chunks (D * C) T (data b))).
  assert (Hblocks : blocks
            = map (fun t => outer (firstn K (skipn (t * K) (data a)))
                              (firstn (D * C) (skipn (t * (D * C)) (data b))))
                (seq 0 T)).
  { unfold blocks. rewrite !chunks_map_nth. apply zip_with_map. }
  assert (Hu : forall t, (t < T)%nat ->
            length (firstn K (skipn (t * K) (data a))) = K).
  { intros t Ht. rewrite length_firstn, length_skipn. nia. }
  assert (Hv : forall t, (t < T)%nat ->
            length (firstn (D * C) (skipn (t * (D * C)) (data b)))
            = (D * C)%nat).
  { intros t Ht. rewrite length_firstn, length_skipn. nia. }
  assert (Hlen : Forall (fun bl => length bl = (K * (D * C))%nat) blocks).
  { rewrite Hblocks. apply Forall_map, Forall_forall. intros t Ht.
    apply in_seq in Ht. rewrite outer_length, Hu, Hv by lia. reflexivity. }
  split; [split|]; cbn [shape data].
  - reflexivity.
  - unfold well_formed; cbn [shape data numel fold_right].
    rewrite (sum_blocks_length Hlen). lia.
  - intros k j Hk Hj. rewrite nth_sum_blocks by (assumption || nia).
    rewrite Hblocks, map_map. unfold sum_upto. f_equal.
    apply map_ext_in. intros t Ht. apply in_seq in Ht.
    rewrite <- (Hv t) at 1 by lia.
    rewrite nth_outer by (rewrite ?Hu, ?Hv by lia; assumption).
    rewrite !nth_firstn_skipn by assumption. reflexivity.
Qed.

End Einsum.

(** ** The E-step: batching *)

Section Batching.

Lemma mapM_inv {A B} (f : A -> result B) (l : list A) (ys : list B) :
  mapM f l = Ok ys ->
  length ys = length l /\
  forall b d d', (b < length l)%nat -> f (nth b l d) = Ok (nth b ys d').
Proof.
  revert ys; induction l as [|x l IH]; intros ys H; cbn [mapM] in H.
  - injection H as <-. split; [reflexivity|]. cbn; intros; lia.
  - unfold rbind in H. destruct (f x) as [y|e] eqn:Ex; [|discriminate].
    destruct (mapM f l) as [ys'|e]; [|discriminate].
    injection H as <-. destruct (IH ys' eq_refl) as [Hlen Hnth].
    split; [cbn; now rewrite Hlen|].
    intros [|b] d d' Hb; cbn; [assumption|]. apply Hnth. cbn in Hb. lia.
Qed.

Lemma mapM_success {A B} (f : A -> result B) (l : list A) :
  (forall x, In x l -> is_ok (f x) = true) -> exists ys, mapM f l = Ok ys.
Proof.
  induction l as [|x l IH]; intros H; cbn [mapM].
  - now exists [].
  - unfold rbind. pose proof (H x (or_introl eq_refl)) as Hx.
    destruct (f x) as [y|e]; [|discriminate].
    destruct IH as [ys ->]; [intros z Hz; apply H; now right|].
    now eexists.
Qed.

Lemma nth_slice0 {A} (a : ndarray A) (B : nat) (s : list nat) (b j : nat)
    (d : A) :
  shape a = B :: s -> (j < numel s)%nat ->
  nth j (data (slice0 a b)) d = nth (b * numel s + j) (data a) d.
Proof.
  intros Hs Hj. unfold slice0. rewrite Hs. cbn [tl data].
  now apply nth_firstn_skipn.
Qed.

Lemma has_shape_slice0 {A} (a : ndarray A) (B : nat) (s : list nat)
    (b : nat) :
  has_shape a (B :: s) -> (b < B)%nat -> has_shape (slice0 a b) s.
Proof.
  intros [Hs Hw] Hb. unfold well_formed in Hw. rewrite Hs in Hw.
  cbn [numel fold_right] in Hw. fold (numel s) in Hw.
  unfold slice0. rewrite Hs. cbn [tl]. split; [reflexivity|].
  unfold well_formed; cbn [shape data].
  rewrite length_firstn, length_skipn. nia.
Qed.

Lemma nth_unstack {A} (B : nat) (s : list nat) (a : ndarray A) (b : nat) :
  shape a = B :: s -> (b < B)%nat ->
  nth b (unstack B s (data a)) (Array s []) = slice0 a b.
Proof.
  intros Hs Hb. unfold unstack, slice0. rewrite Hs. cbn [tl].
  rewrite (map_nth (Array s)). now rewrite nth_chunks.
Qed.

Lemma unstack_length {A} (B : nat) (s : list nat) (d : list A) :
  length (unstack B s d) = B.
Proof. unfold unstack. now rewrite length_map, chunks_length. Qed.

(** The [b]-th slice of a stack is its [b]-th member. *)
Lemma slice0_stack (proto : ndarray Q) (l : list (ndarray Q)) (b : nat) :
  Forall (array_like proto) l -> (b < length l)%nat ->
  slice0 (stack proto l) b = nth b l proto.
Proof.
  intros Hl Hb.
  pose proof (data_all_length Hl) as Hlen.
  assert (Hb' : (b < length (map (@data Q) l))%nat) by now rewrite length_map.
  unfold slice0, stack. cbn [shape data tl].
  rewrite <- (nth_chunks (numel (shape proto)) (concat (map (@data Q) l)) Hb').
  rewrite (chunks_concat Hlen).
  rewrite nth_indep with (d' := data proto) by assumption.
  rewrite (map_nth (@data Q)).
  rewrite Forall_forall in Hl.
  destruct (Hl (nth b l proto) (nth_In l proto Hb)) as [Hs _].
  destruct (nth b l proto) as [sh dt]. cbn in *. now subst sh.
Qed.

Lemma slice_stats_stack_stats
    (proto : CategoricalHMMSuffStats (ndarray Q))
    (l : list (CategoricalHMMSuffStats (ndarray Q))) (b : nat) :
  Forall (record_like proto) l -> (b < length l)%nat ->
  slice_stats (stack_stats proto l) b = nth b l proto.
Proof.
  intros Hl Hb. destruct (Forall_record_like_fields Hl) as (H1 & H2 & H3 & H4).
  unfold slice_stats, stack_stats.
  cbn [marginal_loglik initial_probs trans_probs sum_x].
  rewrite !slice0_stack by (assumption || now rewrite length_map).
  rewrite (map_nth (@marginal_loglik _)), (map_nth (@initial_probs _)),
    (map_nth (@trans_probs _)), (map_nth (@sum_x _)).
  now destruct (nth b l proto).
Qed.

(** [vmap]: if the function returns records of the traced shapes on every
    slice, the batched result has these shapes behind the batch axis, and
    its [b]-th slice is the result of the function on the [b]-th slice of
    the argument. *)
Lemma vmap_slices
    (f : ndarray Z -> result (CategoricalHMMSuffStats (ndarray Q)))
    (xs : ndarray Z) (B : nat) (s : list nat)
    (proto : CategoricalHMMSuffStats (ndarray Q)) :
  shape xs = B :: s ->
  f (Array s (repeat 0%Z (numel s))) = Ok proto ->
  (forall b, (b < B)%nat ->
     exists st, f (slice0 xs b) = Ok st /\ record_like proto st) ->
  exists out, vmap f xs = Ok out /\
    (shape (marginal_loglik out) = B :: shape (marginal_loglik proto) /\
     shape (initial_probs out) = B :: shape (initial_probs proto) /\
     shape (trans_probs out) = B :: shape (trans_probs proto) /\
     shape (sum_x out) = B :: shape (sum_x proto)) /\
    forall b, (b < B)%nat ->
      f (slice0 xs b) = Ok (slice_stats out b) /\
      record_like proto (slice_stats out b).
Proof.
  intros Hs Hproto Hf. unfold vmap. rewrite Hs, Hproto. cbn [rbind].
  destruct (@mapM_success _ _ f (unstack B s (data xs))) as [outs Houts].
  { intros x Hx. destruct (In_nth _ _ (Array s []) Hx) as (b & Hb & <-).
    rewrite unstack_length in Hb. rewrite nth_unstack by assumption.
    destruct (Hf b Hb) as (st & -> & _). reflexivity. }
  rewrite Houts. cbn [rbind]. eexists; split; [reflexivity|].
  destruct (mapM_inv _ _ Houts) as [Hlen Hnth].
  rewrite unstack_length in Hlen, Hnth.
  assert (Hb_out : forall b, (b < B)%nat ->
            f (slice0 xs b) = Ok (nth b outs proto)).
  { intros b Hb. rewrite <- (nth_unstack _ Hs Hb). now apply Hnth. }
  assert (Hlike : Forall (record_like proto) outs).
  { apply Forall_forall. intros st Hst.
    destruct (In_nth _ _ proto Hst) as (b & Hb & <-).
    rewrite Hlen in Hb. destruct (Hf b Hb) as (st' & E & Hl).
    rewrite (Hb_out b Hb) in E. injection E as <-. exact Hl. }
  split.
  - unfold stack_stats, stack.
    cbn [marginal_loglik initial_probs trans_probs sum_x shape].
    now rewrite !length_map, Hlen.
  - intros b Hb.
    rewrite slice_stats_stack_stats by (assumption || lia).
    split; [now apply Hb_out|].
    rewrite Forall_forall in Hlike. apply Hlike, nth_In. lia.
Qed.

End Batching.

(** ** The E-step on one sequence and on a batch *)

Section EStep.

Context {base : BaseHMM} {inference : HMMInference}.
Context (base_ok : BaseHMM_contract base).
Context (inference_ok : HMMInference_contract inference).

Lemma num_classes_dims (m : CategoricalHMM) (K D C : nat) :
  model_dims m K D C -> num_classes m = Ok C.
Proof.
  intros (_ & _ & (Hs & _)). unfold num_classes, emission_probs.
  now apply shape_at_2 with (n0 := K) (n1 := D) (s := []).
Qed.

Lemma num_emissions_dims (m : CategoricalHMM) (K D C : nat) :
  model_dims m K D C -> num_emissions m = Ok D.
Proof.
  intros (_ & _ & (Hs & _)). unfold num_emissions, emission_probs.
  now apply shape_at_1 with (n0 := K) (s := [C]).
Qed.

Lemma has_shape_getitem0 (a : ndarray Q) (n : nat) (s : list nat) :
  has_shape a (n :: s) -> (0 < n)%nat ->
  exists a0, getitem0 a = Ok a0 /\ has_shape a0 s.
Proof.
  intros [Hs Hw] Hn. unfold well_formed in Hw. rewrite Hs in Hw.
  cbn [numel fold_right] in Hw. fold (numel s) in Hw.
  unfold getitem0. rewrite Hs.
  destruct (Nat.eqb_spec n 0) as [->|_]; [lia|].
  eexists; split; [reflexivity|]. split; [reflexivity|].
  unfold well_formed; cbn [shape data]. rewrite length_firstn. nia.
Qed.

(** One sequence of length [T >= 1] over [D] channels: [_single_e_step]
    returns a record of the event shapes, and its [sum_x] field holds the
    expected emission counts. *)
Lemma single_e_step_spec (m : CategoricalHMM) (K D C : nat)
    (x : ndarray Z) (T : nat) :
  model_dims m K D C -> has_shape x [T; D] -> (0 < T)%nat ->
  exists ll p st,
    _conditional_logliks m x = Ok ll /\
    hmm_smoother (value (_initial_probs m)) (value (_transition_matrix m)) ll
    = Ok p /\
    has_shape (posterior_smoothed_probs p) [T; K] /\
    _single_e_step m x = Ok st /\
    (has_shape (marginal_loglik st) [] /\
     has_shape (initial_probs st) [K] /\
     has_shape (trans_probs st) [K; K] /\
     has_shape (sum_x st) [K; D; C]) /\
    forall k d i, (k < K)%nat -> (d < D)%nat -> (i < C)%nat ->
      get (sum_x st) [k; d; i]
      = sum_upto T (fun t =>
          get (posterior_smoothed_probs p) [t; k]
          * (if (getZ x [t; d] =? Z.of_nat i)%Z then 1 else 0)).
Proof.
  intros Hm Hx HT. pose proof Hm as (Hip & Htm & Hep).
  destruct (@conditional_logliks_dims _ base_ok m K D C x T Hm Hx)
    as (ll & Ell & Hll).
  destruct (@hmm_smoother_dims _ inference_ok _ _ ll K T Hip Htm Hll)
    as (p & Ep & Hsm & Hml).
  destruct (@compute_transition_probs_dims _ inference_ok _ _ ll p K T
              Hip Htm Hll Ep) as (tp & Etp & Htp).
  destruct (has_shape_getitem0 Hsm HT) as (ip0 & Eip0 & Hip0).
  pose proof (@has_shape_one_hot x [T; D] C Hx) as Hoh. cbn [app] in Hoh.
  destruct (einsum_tk_tdi_entry Hsm Hoh) as (sx & Esx & Hsx & Hent).
  exists ll, p. eexists. split; [exact Ell|]. split; [exact Ep|].
  split; [exact Hsm|]. split.
  { unfold _single_e_step. rewrite Ell. cbn [rbind]. rewrite Ep. cbn [rbind].
    rewrite Eip0. cbn [rbind]. rewrite Etp. cbn [rbind].
    rewrite (num_classes_dims Hm). cbn [rbind]. rewrite Esx. cbn [rbind].
    reflexivity. }
  cbn [marginal_loglik initial_probs trans_probs sum_x].
  split; [exact (conj Hml (conj Hip0 (conj Htp Hsx)))|].
  intros k d i Hk Hd Hi.
  destruct Hsx as [Hsxs _], Hsm as [Hsms _], Hx as [Hxs Hxw].
  unfold well_formed in Hxw. rewrite Hxs in Hxw. cbn [numel fold_right] in Hxw.
  unfold get, getZ. rewrite Hsxs, Hxs.
  cbn [flat_index numel fold_right].
  replace (k * (D * (C * 1)) + (d * (C * 1) + (i * 1 + 0)))%nat
    with (k * (D * C) + (d * C + i))%nat by lia.
  rewrite Hent by nia.
  apply sum_upto_ext. intros t Ht. rewrite Hsms.
  cbn [flat_index numel fold_right].
  replace (t * (K * 1) + (k * 1 + 0))%nat with (t * K + k)%nat by lia.
  f_equal.
  replace (t * (D * C) + (d * C + i))%nat
    with ((t * D + d) * C + i)%nat by lia.
  rewrite nth_one_hot by nia.
  replace (t * (D * 1) + (d * 1 + 0))%nat with (t * D + d)%nat by lia.
  reflexivity.
Qed.

(** A batch of [B] sequences: [e_step] succeeds, its result has the event
    shapes behind the batch axis, and its [b]-th record is the result of
    [_single_e_step] on the [b]-th sequence alone. *)
Lemma e_step_spec (m : CategoricalHMM) (K D C : nat)
    (batch : ndarray Z) (B T : nat) :
  model_dims m K D C -> has_shape batch [B; T; D] -> (0 < T)%nat ->
  exists out, e_step m batch = Ok out /\
    (shape (marginal_loglik out) = [B] /\
     shape (initial_probs out) = [B; K] /\
     shape (trans_probs out) = [B; K; K] /\
     shape (sum_x out) = [B; K; D; C]) /\
    forall b, (b < B)%nat ->
      _single_e_step m (slice0 batch b) = Ok (slice_stats out b) /\
      has_shape (marginal_loglik (slice_stats out b)) [] /\
      has_shape (initial_probs (slice_stats out b)) [K] /\
      has_shape (trans_probs (slice_stats out b)) [K; K] /\
      has_shape (sum_x (slice_stats out b)) [K; D; C].
Proof.
  intros Hm Hb HT.
  assert (Hz : has_shape (Array [T; D] (repeat 0%Z (numel [T; D]))) [T; D]).
  { split; [reflexivity|]. unfold well_formed; cbn [shape data].
    apply repeat_length. }
  destruct (single_e_step_spec Hm Hz HT)
    as (_ & _ & proto & _ & _ & _ & Eproto & (P1 & P2 & P3 & P4) & _).
  destruct (@vmap_slices (_single_e_step m) batch B [T; D] proto
              (proj1 Hb) Eproto) as (out & Eout & Hshapes & Hslices).
  { intros b Hlt.
    destruct (single_e_step_spec Hm (has_shape_slice0 Hb Hlt) HT)
      as (_ & _ & st & _ & _ & _ & Est & (S1 & S2 & S3 & S4) & _).
    exists st. split; [exact Est|].
    unfold record_like, array_like.
    rewrite (proj1 P1), (proj1 P2), (proj1 P3), (proj1 P4).
    exact (conj S1 (conj S2 (conj S3 S4))). }
  exists out. split; [exact Eout|].
  rewrite (proj1 P1), (proj1 P2), (proj1 P3), (proj1 P4) in Hshapes.
  split; [exact Hshapes|].
  intros b Hlt. destruct (Hslices b Hlt) as (E & R1 & R2 & R3 & R4).
  unfold array_like in R1, R2, R3, R4.
  rewrite (proj1 P1) in R1. rewrite (proj1 P2) in R2.
  rewrite (proj1 P3) in R3. rewrite (proj1 P4) in R4.
  exact (conj E (conj R1 (conj R2 (conj R3 R4)))).
Qed.

End EStep.

(** ** Sums of indicators and of expected counts *)

Section Counting.

Lemma sum_upto_ext_Qeq (n : nat) (f g : nat -> Q) :
  (forall j, (j < n)%nat -> f j == g j) -> sum_upto n f == sum_upto n g.
Proof.
  intros H. unfold sum_upto. apply sumQ_map_ext.
  intros j Hj. apply in_seq in Hj. apply H. lia.
Qed.

Lemma sum_upto_exchange (n m : nat) (f : nat -> nat -> Q) :
  sum_upto n (fun i => sum_upto m (fun j => f i j))
  == sum_upto m (fun j => sum_upto n (fun i => f i j)).
Proof. unfold sum_upto. apply sumQ_exchange. Qed.

Lemma sum_upto_scale (n : nat) (c : Q) (f : nat -> Q) :
  sum_upto n (fun j => c * f j) == c * sum_upto n f.
Proof. unfold sum_upto. apply sumQ_map_scale. Qed.

Lemma sum_upto_const (n : nat) (c : Q) :
  sum_upto n (fun _ => c) == inject_Z (Z.of_nat n) * c.
Proof.
  unfold sum_upto. rewrite sumQ_map_const. now rewrite length_seq.
Qed.

Lemma sum_upto_S (n : nat) (f : nat -> Q) :
  sum_upto (S n) f == sum_upto n f + f n.
Proof.
  unfold sum_upto. rewrite seq_S, map_app, sumQ_app. cbn. ring.
Qed.

(** Exactly one class matches an observation that lies in [0, C). *)
Lemma sum_upto_indicator (C : nat) (x : Z) :
  (0 <= x < Z.of_nat C)%Z ->
  sum_upto C (fun i => if (x =? Z.of_nat i)%Z then 1 else 0) == 1.
Proof.
  assert (Hbelow : forall n, (Z.of_nat n <= x)%Z ->
            sum_upto n (fun i => if (x =? Z.of_nat i)%Z then 1 else 0) == 0).
  { induction n as [|n IH]; intros Hn; [reflexivity|].
    rewrite sum_upto_S, IH by lia.
    destruct (Z.eqb_spec x (Z.of_nat n)); [lia|]. ring. }
  induction C as [|C IH]; intros Hx; [lia|].
  rewrite sum_upto_S.
  destruct (Z.eqb_spec x (Z.of_nat C)) as [E|E].
  - rewrite Hbelow by lia. ring.
  - rewrite IH by lia. ring.
Qed.

(** The expected counts of one channel add up to the sequence length when
    every smoothed distribution sums to one. *)
Lemma expected_counts_total (T K C : nat) (gamma : nat -> nat -> Q)
    (obs : nat -> Z) :
  (forall t, (t < T)%nat -> sum_upto K (fun k => gamma t k) == 1) ->
  (forall t, (t < T)%nat -> (0 <= obs t < Z.of_nat C)%Z) ->
  sum_upto K (fun k => sum_upto C (fun i => sum_upto T (fun t =>
    gamma t k * (if (obs t =? Z.of_nat i)%Z then 1 else 0))))
  == inject_Z (Z.of_nat T).
Proof.
  intros Hg Ho.
  transitivity (sum_upto K (fun k => sum_upto T (fun t => gamma t k))).
  - apply sum_upto_ext_Qeq. intros k _.
    rewrite sum_upto_exchange. apply sum_upto_ext_Qeq. intros t Ht.
    rewrite sum_upto_scale, sum_upto_indicator by auto. ring.
  - rewrite sum_upto_exchange.
    transitivity (sum_upto T (fun _ => 1)).
    + apply sum_upto_ext_Qeq. intros t Ht. now apply Hg.
    + rewrite sum_upto_const. ring.
Qed.

End Counting.

(** ** Statements about the E-step *)

Section EStepEntries.

Context {base : BaseHMM} {inference : HMMInference}.
Context (base_ok : BaseHMM_contract base).
Context (inference_ok : HMMInference_contract inference).

Lemma get_slice0 (a : ndarray Q) (B : nat) (s : list nat) (b : nat)
    (idx : list nat) :
  shape a = B :: s -> (flat_index s idx < numel s)%nat ->
  get (slice0 a b) idx = get a (b :: idx).
Proof.
  intros Hs Hidx. unfold get.
  replace (shape (slice0 a b)) with s by (unfold slice0; now rewrite Hs).
  rewrite Hs. cbn [flat_index]. now apply nth_slice0 with (B := B).
Qed.

Lemma getZ_slice0 (a : ndarray Z) (B : nat) (s : list nat) (b : nat)
    (idx : list nat) :
  shape a = B :: s -> (flat_index s idx < numel s)%nat ->
  getZ (slice0 a b) idx = getZ a (b :: idx).
Proof.
  intros Hs Hidx. unfold getZ.
  replace (shape (slice0 a b)) with s by (unfold slice0; now rewrite Hs).
  rewrite Hs. cbn [flat_index]. now apply nth_slice0 with (B := B).
Qed.

Lemma flat_index3_bound (K D C k d i : nat) :
  (k < K)%nat -> (d < D)%nat -> (i < C)%nat ->
  (flat_index [K; D; C] [k; d; i] < numel [K; D; C])%nat.
Proof.
  intros Hk Hd Hi. cbn [flat_index numel fold_right].
  rewrite !Nat.mul_1_r, !Nat.add_0_r.
  assert (d * C + i < D * C)%nat by nia.
  assert (k * (D * C) + D * C <= K * (D * C))%nat by nia.
  lia.
Qed.

Lemma flat_index2_bound (T D t d : nat) :
  (t < T)%nat -> (d < D)%nat ->
  (flat_index [T; D] [t; d] < numel [T; D])%nat.
Proof.
  intros Ht Hd. cbn [flat_index numel fold_right].
  rewrite !Nat.mul_1_r, !Nat.add_0_r. nia.
Qed.

(** The entries of [sum_x] for every sequence of a batch. *)
Lemma e_step_entries (m : CategoricalHMM) (K D C : nat)
    (batch : ndarray Z) (B T : nat) :
  model_dims m K D C -> has_shape batch [B; T; D] -> (0 < T)%nat ->
  exists out, e_step m batch = Ok out /\
    forall b, (b < B)%nat ->
      exists ll p,
        _conditional_logliks m (slice0 batch b) = Ok ll /\
        hmm_smoother (value (_initial_probs m))
          (value (_transition_matrix m)) ll = Ok p /\
        has_shape (posterior_smoothed_probs p) [T; K] /\
        _single_e_step m (slice0 batch b) = Ok (slice_stats out b) /\
        forall k d i, (k < K)%nat -> (d < D)%nat -> (i < C)%nat ->
          get (sum_x out) [b; k; d; i]
          = expected_count T (posterior_smoothed_probs p)
              (fun t => getZ batch [b; t; d]) k i.
Proof.
  intros Hm Hb HT.
  destruct (e_step_spec base_ok inference_ok Hm Hb HT)
    as (out & Eout & (_ & _ & _ & Hsx) & Hslices).
  exists out. split; [exact Eout|]. intros b Hlt.
  destruct (Hslices b Hlt) as (Eb & _).
  destruct (single_e_step_spec base_ok inference_ok Hm
              (has_shape_slice0 Hb Hlt) HT)
    as (ll & p & st & Ell & Ep & Hsm & Est & _ & Hent).
  assert (st = slice_stats out b) by congruence. subst st.
  exists ll, p. repeat (split; [assumption|]).
  intros k d i Hk Hd Hi. unfold expected_count.
  rewrite <- (@get_slice0 (sum_x out) B [K; D; C] b [k; d; i] Hsx)
    by now apply flat_index3_bound.
  change (slice0 (sum_x out) b) with (sum_x (slice_stats out b)).
  rewrite (Hent k d i Hk Hd Hi).
  apply sum_upto_ext. intros t Ht.
  rewrite (@getZ_slice0 batch B [T; D] b [t; d] (proj1 Hb))
    by now apply flat_index2_bound.
  reflexivity.
Qed.

End EStepEntries.

Lemma constructed_model_dimensions (base : BaseHMM)
    (ip tm ep : ndarray Q) (m : CategoricalHMM) :
  CategoricalHMM_init ip tm ep = Ok m ->
  value (_emission_probs m) = ep /\
  is_ok (num_emissions m) = true /\ is_ok (num_classes m) = true.
Proof.
  unfold CategoricalHMM_init, rbind.
  destruct (BaseHMM_init _ _) as [ps|e]; [|discriminate].
  destruct (Nat.eqb_spec (ndim ep) 3) as [H3|H3]; [|discriminate].
  intros H; injection H as <-.
  unfold num_emissions, num_classes, emission_probs, shape_at.
  cbn [_emission_probs value]. unfold ndim in H3.
  destruct (shape ep) as [|n0 [|n1 [|n2 s]]]; try discriminate.
  repeat split.
Qed.

(** C1.  For a model over [K] states, [D] channels and [C] classes,
    [suff_stats_event_shape] returns the shapes [()], [(K,)], [(K, K)] and
    [(K, D, C)], and these are the shapes of the fields of each
    per-sequence record that [e_step] produces on a batch of sequences of
    length [T >= 1]; evaluating [suff_stats_event_shape] does not fail. *)
Theorem suff_stats_event_shape_matches_e_step
    (base : BaseHMM) (inference : HMMInference)
    (base_ok : BaseHMM_contract base)
    (inference_ok : HMMInference_contract inference)
    (m : CategoricalHMM) (K D C : nat) (batch : ndarray Z) (B T : nat) :
  model_dims m K D C -> has_shape batch [B; T; D] -> (0 < T)%nat ->
  exists ev out,
    suff_stats_event_shape m = Ok ev /\
    ev = {| marginal_loglik := []; initial_probs := [K];
            trans_probs := [K; K]; sum_x := [K; D; C] |} /\
    e_step m batch = Ok out /\
    stats_shapes out
    = {| marginal_loglik := B :: marginal_loglik ev;
         initial_probs := B :: initial_probs ev;
         trans_probs := B :: trans_probs ev;
         sum_x := B :: sum_x ev |} /\
    forall b, (b < B)%nat ->
      stats_shapes (slice_stats out b) = ev /\
      stats_well_formed (slice_stats out b).
Proof.
  intros Hm Hb HT.
  destruct (e_step_spec base_ok inference_ok Hm Hb HT)
    as (out & Eout & (H1 & H2 & H3 & H4) & Hslices).
  eexists; exists out. split.
  { unfold suff_stats_event_shape.
    rewrite (@num_states_dims _ base_ok m K D C Hm).
    rewrite (@num_obs_dims _ base_ok m K D C Hm).
    rewrite (num_classes_dims Hm). cbn [rbind]. reflexivity. }
  split; [reflexivity|]. split; [exact Eout|].
  cbn [marginal_loglik initial_probs trans_probs sum_x]. split.
  { unfold stats_shapes. now rewrite H1, H2, H3, H4. }
  intros b Hlt.
  destruct (Hslices b Hlt) as (_ & (S1 & W1) & (S2 & W2) & (S3 & W3) & (S4 & W4)).
  split.
  - unfold stats_shapes. now rewrite S1, S2, S3, S4.
  - now repeat split.
Qed.

Lemma model_dims_example : model_dims Instances.model 2 1 3.
Proof. repeat split. Qed.

Lemma has_shape_batch_example : has_shape Instances.batch [2; 2; 1]%nat.
Proof. split; reflexivity. Qed.

Lemma suff_stats_event_shape_matches_e_step_witness :
  model_dims Instances.model 2 1 3 /\
  exists ev out,
    suff_stats_event_shape (base := Instances.base) Instances.model = Ok ev /\
    e_step (base := Instances.base) (inference := Instances.inference)
      Instances.model Instances.batch = Ok out /\
    stats_shapes (slice_stats out 1) = ev.
Proof.
  split; [exact model_dims_example|].
  destruct (@suff_stats_event_shape_matches_e_step
              Instances.base Instances.inference
              base_meets_contract inference_meets_contract
              Instances.model 2 1 3 Instances.batch 2 2
              model_dims_example has_shape_batch_example)
    as (ev & out & Hev & _ & Hout & _ & Hslices); [lia|].
  exists ev, out. repeat split; try assumption.
  apply Hslices. lia.
Defined.

(** C4.  For every sequence [b] of the batch, the [sum_x] statistic
    computed by [e_step] is, for each state [k], channel [d] and class [i],
    the sum over the timesteps [t] of the smoothed occupancy probability of
    state [k] at [t] times the indicator that the class observed on channel
    [d] at [t] is [i]; the smoothed probabilities are those of sequence [b],
    and the record of sequence [b] is the result of [_single_e_step] on
    that sequence alone. *)
Theorem e_step_sum_x_expected_counts
    (base : BaseHMM) (inference : HMMInference)
    (base_ok : BaseHMM_contract base)
    (inference_ok : HMMInference_contract inference)
    (m : CategoricalHMM) (K D C : nat) (batch : ndarray Z) (B T : nat) :
  model_dims m K D C -> has_shape batch [B; T; D] -> (0 < T)%nat ->
  exists out, e_step m batch = Ok out /\
    forall b, (b < B)%nat ->
      exists ll p,
        _conditional_logliks m (slice0 batch b) = Ok ll /\
        hmm_smoother (value (_initial_probs m))
          (value (_transition_matrix m)) ll = Ok p /\
        _single_e_step m (slice0 batch b) = Ok (slice_stats out b) /\
        forall k d i, (k < K)%nat -> (d < D)%nat -> (i < C)%nat ->
          get (sum_x out) [b; k; d; i]
          == expected_count T (posterior_smoothed_probs p)
               (fun t => getZ batch [b; t; d]) k i.
Proof.
  intros Hm Hb HT.
  destruct (e_step_entries base_ok inference_ok Hm Hb HT) as (out & Eout & H).
  exists out. split; [exact Eout|]. intros b Hlt.
  destruct (H b Hlt) as (ll & p & Ell & Ep & _ & Eb & Hent).
  exists ll, p. repeat (split; [assumption|]).
  intros k d i Hk Hd Hi. now rewrite (Hent k d i Hk Hd Hi).
Qed.

Lemma e_step_sum_x_expected_counts_witness :
  has_shape Instances.batch [2; 2; 1]%nat /\
  exists out,
    e_step (base := Instances.base) (inference := Instances.inference)
      Instances.model Instances.batch = Ok out /\
    get (sum_x out) [1; 0; 0; 1]%nat == 1.
Proof.
  split; [exact has_shape_batch_example|].
  destruct (@e_step_sum_x_expected_counts
              Instances.base Instances.inference
              base_meets_contract inference_meets_contract
              Instances.model 2 1 3 Instances.batch 2 2
              model_dims_example has_shape_batch_example)
    as (out & Hout & _); [lia|].
  exists out. split; [exact Hout|].
  vm_compute in Hout. injection Hout as <-. reflexivity.
Defined.

(** C9.  For a batch of sequences of length [T] whose observations all lie
    in [0, C), if every row of the smoothed occupancy probabilities of
    each sequence sums to one, then for each sequence and each emission
    channel the [sum_x] statistic computed by [e_step], summed over all
    states and all classes, is [T]. *)
Theorem e_step_sum_x_total
    (base : BaseHMM) (inference : HMMInference)
    (base_ok : BaseHMM_contract base)
    (inference_ok : HMMInference_contract inference)
    (m : CategoricalHMM) (K D C : nat) (batch : ndarray Z) (B T : nat) :
  model_dims m K D C -> has_shape batch [B; T; D] -> (0 < T)%nat ->
  valid_observations C batch ->
  (forall b ll p, (b < B)%nat ->
     _conditional_logliks m (slice0 batch b) = Ok ll ->
     hmm_smoother (value (_initial_probs m))
       (value (_transition_matrix m)) ll = Ok p ->
     forall t, (t < T)%nat ->
       sum_upto K (fun k => get (posterior_smoothed_probs p) [t; k]) == 1) ->
  exists out, e_step m batch = Ok out /\
    forall b d, (b < B)%nat -> (d < D)%nat ->
      sum_upto K (fun k => sum_upto C (fun i => get (sum_x out) [b; k; d; i]))
      == inject_Z (Z.of_nat T).
Proof.
  intros Hm Hb HT Hobs Hrows.
  destruct (e_step_entries base_ok inference_ok Hm Hb HT) as (out & Eout & H).
  exists out. split; [exact Eout|]. intros b d Hlt Hd.
  destruct (H b Hlt) as (ll & p & Ell & Ep & _ & _ & Hent).
  transitivity
    (sum_upto K (fun k => sum_upto C (fun i =>
       expected_count T (posterior_smoothed_probs p)
         (fun t => getZ batch [b; t; d]) k i))).
  - apply sum_upto_ext_Qeq. intros k Hk.
    apply sum_upto_ext_Qeq. intros i Hi.
    now rewrite (Hent k d i Hk Hd Hi).
  - unfold expected_count.
    apply (@expected_counts_total T K C
             (fun t k => get (posterior_smoothed_probs p) [t; k])
             (fun t => getZ batch [b; t; d])).
    + intros t Ht. now apply (Hrows b ll p).
    + intros t Ht. unfold getZ, valid_observations in *.
      destruct Hb as [Hbs Hbw]. unfold well_formed in Hbw.
      rewrite Hbs in Hbw |- *. cbn [numel fold_right] in Hbw.
      rewrite Forall_forall in Hobs. apply Hobs, nth_In.
      rewrite Hbw. cbn [flat_index numel fold_right].
      rewrite !Nat.mul_1_r, !Nat.add_0_r.
      assert (t * D + d < T * D)%nat by nia.
      assert (b * (T * D) + T * D <= B * (T * D))%nat by nia.
      lia.
Qed.

Lemma e_step_sum_x_total_witness :
  valid_observations 3 Instances.batch /\
  exists out,
    e_step (base := Instances.base) (inference := Instances.inference)
      Instances.model Instances.batch = Ok out /\
    sum_upto 2 (fun k => sum_upto 3 (fun i =>
      get (sum_x out) [1; k; 0; i]%nat)) == 2.
Proof.
  assert (Hobs : valid_observations 3 Instances.batch).
  { unfold valid_observations; cbn [data Instances.batch].
    repeat (apply Forall_cons; [lia|]). apply Forall_nil. }
  split; [exact Hobs|].
  destruct (@e_step_sum_x_total
              Instances.base Instances.inference
              base_meets_contract inference_meets_contract
              Instances.model 2 1 3 Instances.batch 2 2
              model_dims_example has_shape_batch_example)
    as (out & Hout & Htotal); [lia | exact Hobs | |].
  - intros b ll p Hb Hll Hp t Ht.
    cbn in Hll. injection Hll as <-. cbn in Hp. injection Hp as <-.
    destruct t as [|[|t]]; [reflexivity | reflexivity | lia].
  - exists out. split; [exact Hout|]. apply (Htotal 1%nat 0%nat); lia.
Defined.

(* ================================================================= *)
(** * Part III.  Further properties of the source *)
(* ================================================================= *)

(** ** The constructor and the dimension properties *)

(** X1.  A model returned by the constructor holds the two parameters of
    the superclass and [emission_probs] itself with the inverted centred
    softmax transform; [emission_probs] has three axes, and [num_emissions]
    and [num_classes] return the second and the third without raising. *)
Theorem constructed_model_properties (base : BaseHMM)
    (ip tm ep : ndarray Q) (m : CategoricalHMM) :
  CategoricalHMM_init ip tm ep = Ok m ->
  exists ps n0 n1 n2,
    BaseHMM_init ip tm = Ok ps /\
    _initial_probs m = fst ps /\ _transition_matrix m = snd ps /\
    emission_probs m = {| value := ep; bijector := Invert SoftmaxCentered |} /\
    shape ep = [n0; n1; n2] /\
    num_emissions m = Ok n1 /\ num_classes m = Ok n2.
Proof.
  unfold CategoricalHMM_init, rbind.
  destruct (BaseHMM_init ip tm) as [ps|e]; [|discriminate].
  destruct (Nat.eqb_spec (ndim ep) 3) as [H3|H3]; [|discriminate].
  intros H; injection H as <-.
  unfold ndim in H3.
  destruct (shape ep) as [|n0 [|n1 [|n2 [|n3 s]]]] eqn:Hs; try discriminate.
  exists ps, n0, n1, n2. repeat split.
  - unfold num_emissions, emission_probs, shape_at.
    cbn [_emission_probs value]. now rewrite Hs.
  - unfold num_classes, emission_probs, shape_at.
    cbn [_emission_probs value]. now rewrite Hs.
Qed.

Lemma constructed_model_properties_witness :
  CategoricalHMM_init (base := Instances.base)
    (Array [2%nat] [0.5; 0.5]) (Array [2; 2]%nat [0.9; 0.1; 0.1; 0.9])
    (Array [2; 1; 3]%nat [0.8; 0.1; 0.1; 0.1; 0.1; 0.8])
  = Ok Instances.model /\
  num_classes Instances.model = Ok 3%nat.
Proof.
  assert (E : CategoricalHMM_init (base := Instances.base)
                (Array [2%nat] [0.5; 0.5])
                (Array [2; 2]%nat [0.9; 0.1; 0.1; 0.9])
                (Array [2; 1; 3]%nat [0.8; 0.1; 0.1; 0.1; 0.1; 0.8])
              = Ok Instances.model) by reflexivity.
  split; [exact E|].
  destruct (@constructed_model_properties Instances.base _ _ _ _ E)
    as (ps & n0 & n1 & n2 & _ & _ & _ & _ & Hs & _ & Hc).
  injection Hs as _ _ <-. exact Hc.
Defined.

(** X2.  [random_initialization] splits the key in three, draws the initial
    distribution, the transition matrix and the emission probabilities with
    the first, the second and the third key, and passes the three samples
    to the constructor.  If the generator returns samples of the requested
    shapes, the rank assertion on [emission_probs] does not fail: the result
    is the model built from these three samples, or the error of the
    superclass constructor. *)
Theorem random_initialization_outcome
    (base : BaseHMM) (random : JaxRandom)
    (random_ok : JaxRandom_contract random)
    (key key1 key2 key3 : PRNGKey)
    (num_states num_emissions num_classes : nat) :
  (0 < num_states)%nat -> (0 < num_classes)%nat ->
  jr_split3 key = (key1, key2, key3) ->
  exists ip tm ep,
    jr_dirichlet key1 (jnp_ones num_states) [] = Ok ip /\
    jr_dirichlet key2 (jnp_ones num_states) [num_states] = Ok tm /\
    jr_dirichlet key3 (jnp_ones num_classes) [num_states; num_emissions]
    = Ok ep /\
    has_shape ip [num_states] /\ has_shape tm [num_states; num_states] /\
    has_shape ep [num_states; num_emissions; num_classes] /\
    random_initialization key num_states num_emissions num_classes
    = match BaseHMM_init ip tm with
      | Ok ps =>
          Ok {| _initial_probs := fst ps;
                _transition_matrix := snd ps;
                _emission_probs :=
                  {| value := ep; bijector := Invert SoftmaxCentered |} |}
      | Err e => Err e
      end.
Proof.
  intros HK HC Hsplit. unfold random_initialization. rewrite Hsplit.
  destruct (@jr_dirichlet_simplex _ random_ok key1 (jnp_ones num_states)
              num_states [] (has_shape_jnp_ones _) HK) as (ip & E1 & S1 & _).
  destruct (@jr_dirichlet_simplex _ random_ok key2 (jnp_ones num_states)
              num_states [num_states] (has_shape_jnp_ones _) HK)
    as (tm & E2 & S2 & _).
  destruct (@jr_dirichlet_simplex _ random_ok key3 (jnp_ones num_classes)
              num_classes [num_states; num_emissions]
              (has_shape_jnp_ones _) HC) as (ep & E3 & S3 & _).
  cbn [app] in S1, S2, S3.
  exists ip, tm, ep. repeat (split; [assumption|]).
  rewrite E1, E2, E3. cbn [rbind].
  unfold CategoricalHMM_init, ndim, rbind.
  rewrite (proj1 S3). cbn [length Nat.eqb]. reflexivity.
Qed.

Lemma random_initialization_outcome_witness :
  exists ip tm ep,
    jr_dirichlet (JaxRandom := Instances.random) 17%nat (jnp_ones 3)
      [2; 1]%nat = Ok ep /\
    has_shape ep [2; 1; 3]%nat /\
    random_initialization (base := Instances.base) (random := Instances.random)
      5%nat 2 1 3
    = match BaseHMM_init (BaseHMM := Instances.base) ip tm with
      | Ok ps =>
          Ok {| _initial_probs := fst ps;
                _transition_matrix := snd ps;
                _emission_probs :=
                  {| value := ep; bijector := Invert SoftmaxCentered |} |}
      | Err e => Err e
      end.
Proof.
  destruct (@random_initialization_outcome Instances.base Instances.random
              random_meets_contract 5%nat 15%nat 16%nat 17%nat
              2%nat 1%nat 3%nat)
    as (ip & tm & ep & _ & _ & E3 & _ & _ & Hep & E);
    [lia | lia | reflexivity |].
  exists ip, tm, ep. exact (conj E3 (conj Hep E)).
Defined.

(** ** The M-step: what it keeps and what it does not check *)

Section MStepMore.

(** The Dirichlet constructor rejects an event axis of fewer than two
    entries. *)
Lemma posterior_mode_too_few (c : Q) (a : ndarray Q) (s' : list nat)
    (K : nat) :
  shape a = s' ++ [K] -> (K < 2)%nat -> posterior_mode c a = Err ValueError.
Proof.
  intros Hs HK. unfold posterior_mode, tfd_Dirichlet, scalar_add.
  cbn [shape]. rewrite Hs, last_last.
  destruct (s' ++ [K]) as [|n s] eqn:E; [now destruct s'|].
  destruct (Nat.ltb_spec K 2) as [_|?]; [reflexivity|lia].
Qed.




Lemma posterior_mode_shape (c : Q) (a v : ndarray Q) :
  posterior_mode c a = Ok v -> shape v = shape a.
Proof.
  intros Hv. destruct (@posterior_mode_rank c a v Hv) as (s' & K & Hs & HK2).
  rewrite (@posterior_mode_eq c a s' K Hs HK2) in Hv.
  injection Hv as <-. now rewrite Hs.
Qed.

Lemma jnp_sum_axis0_tl (a sa : ndarray Q) :
  jnp_sum_axis0 a = Ok sa -> shape sa = tl (shape a).
Proof.
  unfold jnp_sum_axis0. destruct (shape a) as [|B s]; [discriminate|].
  intros H; injection H as <-. reflexivity.
Qed.



End MStepMore.

(** X3.  On statistics of the regular shapes, for [K] states, [D] channels
    and [C] classes, whether [m_step] succeeds is decided by [K] and [C]
    alone, whatever the values of the statistics: it succeeds exactly when
    there are at least two states and two classes, and then leaves a model
    of the dimensions [K], [D], [C].  With fewer than two states it raises
    [ValueError] and assigns nothing; with two states or more and fewer
    than two classes it raises [ValueError] after it has assigned the
    initial distribution and the transition matrix. *)
Theorem m_step_succeeds_iff_two_outcomes (KW : Type)
    (batch_emissions : ndarray Z)
    (batch_posteriors : CategoricalHMMSuffStats (ndarray Q)) (kwargs : KW)
    (self : CategoricalHMM) (B K D C : nat) :
  has_shape (marginal_loglik batch_posteriors) [B] ->
  has_shape (initial_probs batch_posteriors) [B; K] ->
  has_shape (trans_probs batch_posteriors) [B; K; K] ->
  has_shape (sum_x batch_posteriors) [B; K; D; C] ->
  let out := m_step batch_emissions batch_posteriors kwargs self in
  (snd out = Ok tt <-> (2 <= K)%nat /\ (2 <= C)%nat) /\
  (snd out = Ok tt -> model_dims (fst out) K D C) /\
  ((K < 2)%nat -> out = (self, Err ValueError)) /\
  ((2 <= K)%nat -> (C < 2)%nat ->
   snd out = Err ValueError /\
   exists v1 v2, fst out = assigned2 self v1 v2 /\
                 has_shape v1 [K] /\ has_shape v2 [K; K]).
Proof.
  intros Hml Hip Htp Hsx. cbv zeta.
  destruct (@has_shape_sum_axis0 _ B [] Hml) as (sml & Eml & _).
  destruct (@has_shape_sum_axis0 _ B [K] Hip) as (sip & Eip & Sip).
  destruct (@has_shape_sum_axis0 _ B [K; K] Htp) as (stp & Etp & Stp).
  destruct (@has_shape_sum_axis0 _ B [K; D; C] Hsx) as (ssx & Esx & Ssx).
  pose proof (m_step_cases batch_emissions batch_posteriors kwargs self) as H.
  unfold tree_map in H. rewrite Eml, Eip, Etp, Esx in H.
  cbn [rbind initial_probs trans_probs sum_x] in H.
  destruct (le_lt_dec 2 K) as [HK|HK].
  - destruct (@has_shape_posterior_mode 1.0001 sip [] K Sip HK)
      as (v1 & E1 & S1).
    destruct (@has_shape_posterior_mode 1.0001 stp [K] K Stp HK)
      as (v2 & E2 & S2).
    rewrite E1, E2 in H. cbn [app] in S1, S2.
    destruct (le_lt_dec 2 C) as [HC|HC].
    + destruct (@has_shape_posterior_mode 1.1 ssx [K; D] C Ssx HC)
        as (v3 & E3 & S3).
      rewrite E3 in H. rewrite H. cbn [fst snd]. cbn [app] in S3.
      split; [split; [intros _; now split|reflexivity]|].
      split; [intros _; exact (conj S1 (conj S2 S3))|].
      split; intros; lia.
    + rewrite (@posterior_mode_too_few 1.1 ssx [K; D] C (proj1 Ssx) HC) in H.
      rewrite H. cbn [fst snd].
      split; [split; [discriminate|intros [_ ?]; lia]|].
      split; [discriminate|]. split; [intros; lia|].
      intros _ _. split; [reflexivity|].
      exists v1, v2. exact (conj eq_refl (conj S1 S2)).
  - rewrite (@posterior_mode_too_few 1.0001 sip [] K (proj1 Sip) HK) in H.
    rewrite H. cbn [fst snd].
    split; [split; [discriminate|intros [? _]; lia]|].
    split; [discriminate|]. split; [reflexivity|intros; lia].
Qed.

Lemma m_step_succeeds_iff_two_outcomes_witness :
  has_shape (sum_x Instances.stats1) [1; 2; 1; 3]%nat /\
  snd (m_step Instances.batch Instances.stats1 tt Instances.model) = Ok tt /\
  model_dims (fst (m_step Instances.batch Instances.stats1 tt Instances.model))
    2 1 3.
Proof.
  assert (H1 : has_shape (marginal_loglik Instances.stats1) [1%nat])
    by (split; reflexivity).
  assert (H2 : has_shape (initial_probs Instances.stats1) [1; 2]%nat)
    by (split; reflexivity).
  assert (H3 : has_shape (trans_probs Instances.stats1) [1; 2; 2]%nat)
    by (split; reflexivity).
  assert (H4 : has_shape (sum_x Instances.stats1) [1; 2; 1; 3]%nat)
    by (split; reflexivity).
  destruct (@m_step_succeeds_iff_two_outcomes unit Instances.batch
              Instances.stats1 tt Instances.model 1 2 1 3 H1 H2 H3 H4)
    as ([_ Hok] & Hdims & _).
  assert (E : snd (m_step Instances.batch Instances.stats1 tt Instances.model)
              = Ok tt) by (apply Hok; split; lia).
  exact (conj H4 (conj E (Hdims E))).
Defined.

(** X4.  [m_step] assigns the [value] of each parameter and nothing else,
    and computes the new values from the statistics alone: whatever the
    outcome, the three transforms of the model are those it had before,
    and for two models the calls have the same outcome and, when they
    succeed, leave the same parameter values. *)
Theorem m_step_forgets_old_values (KW : Type) (batch_emissions : ndarray Z)
    (batch_posteriors : CategoricalHMMSuffStats (ndarray Q)) (kwargs : KW)
    (self1 self2 : CategoricalHMM) :
  let out1 := m_step batch_emissions batch_posteriors kwargs self1 in
  let out2 := m_step batch_emissions batch_posteriors kwargs self2 in
  parameter_bijectors (fst out1) = parameter_bijectors self1 /\
  snd out1 = snd out2 /\
  (is_ok (snd out1) = false \/
   parameter_values (fst out1) = parameter_values (fst out2)).
Proof.
  pose proof (m_step_cases batch_emissions batch_posteriors kwargs self1) as H1.
  pose proof (m_step_cases batch_emissions batch_posteriors kwargs self2) as H2.
  cbn zeta.
  destruct (tree_map jnp_sum_axis0 batch_posteriors) as [stats|e].
  2:{ rewrite H1, H2. cbn. auto. }
  destruct (posterior_mode 1.0001 (initial_probs stats)) as [v1|e].
  2:{ rewrite H1, H2. cbn. auto. }
  destruct (posterior_mode 1.0001 (trans_probs stats)) as [v2|e].
  2:{ rewrite H1, H2. cbn. auto. }
  destruct (posterior_mode 1.1 (sum_x stats)) as [v3|e].
  2:{ rewrite H1, H2. cbn. auto. }
  rewrite H1, H2. cbn. auto.
Qed.

Section MStepEdges.




End MStepEdges.



(** X6.  [m_step] does not compare the statistics with the dimensions of
    the model: after a call that succeeds, the shape of each parameter is
    the shape of its statistic without the batch axis, whatever the shapes
    of the parameters were. *)
Theorem m_step_takes_shapes_from_statistics (KW : Type)
    (batch_emissions : ndarray Z)
    (batch_posteriors : CategoricalHMMSuffStats (ndarray Q)) (kwargs : KW)
    (self self' : CategoricalHMM) :
  m_step batch_emissions batch_posteriors kwargs self = (self', Ok tt) ->
  shape (value (_initial_probs self'))
  = tl (shape (initial_probs batch_posteriors)) /\
  shape (value (_transition_matrix self'))
  = tl (shape (trans_probs batch_posteriors)) /\
  shape (value (_emission_probs self'))
  = tl (shape (sum_x batch_posteriors)).
Proof.
  intros Hm.
  pose proof (m_step_cases batch_emissions batch_posteriors kwargs self) as H.
  destruct (tree_map jnp_sum_axis0 batch_posteriors) as [stats|e] eqn:Es;
    [|congruence].
  destruct (@m_step_success_inv _ _ _ _ _ _ _ Es Hm)
    as (v1 & v2 & v3 & E1 & E2 & E3 & ->).
  destruct (@tree_map_inv _ _ _ _ _ Es) as (_ & S1 & S2 & S3).
  cbn [assigned3 _initial_probs _transition_matrix _emission_probs
       set_value value].
  rewrite (@posterior_mode_shape _ _ _ E1), (@posterior_mode_shape _ _ _ E2),
    (@posterior_mode_shape _ _ _ E3).
  now rewrite (@jnp_sum_axis0_tl _ _ S1), (@jnp_sum_axis0_tl _ _ S2),
    (@jnp_sum_axis0_tl _ _ S3).
Qed.

Lemma m_step_takes_shapes_from_statistics_witness :
  shape (value (_emission_probs
    (fst (m_step Instances.batch Inputs.stats_flat tt Instances.model))))
  = [3%nat].
Proof.
  refine (proj2 (proj2 (@m_step_takes_shapes_from_statistics unit
            Instances.batch Inputs.stats_flat tt Instances.model _ _))).
  vm_compute. reflexivity.
Defined.

(** X7.  The rank-3 invariant that the constructor checks is not kept by
    [m_step]: when the [sum_x] statistic comes without its state and
    channel axes, the call succeeds, [emission_probs] is left with one
    axis, and [num_emissions] and [num_classes] then raise [IndexError]. *)
Theorem m_step_can_lose_the_emission_axes (KW : Type)
    (batch_emissions : ndarray Z)
    (batch_posteriors : CategoricalHMMSuffStats (ndarray Q)) (kwargs : KW)
    (self : CategoricalHMM) (B K C : nat) :
  (2 <= K)%nat -> (2 <= C)%nat ->
  has_shape (marginal_loglik batch_posteriors) [B] ->
  has_shape (initial_probs batch_posteriors) [B; K] ->
  has_shape (trans_probs batch_posteriors) [B; K; K] ->
  has_shape (sum_x batch_posteriors) [B; C] ->
  exists self',
    m_step batch_emissions batch_posteriors kwargs self = (self', Ok tt) /\
    shape (value (_emission_probs self')) = [C] /\
    num_emissions self' = Err IndexError /\
    num_classes self' = Err IndexError.
Proof.
  intros HK2 HC2 Hml Hip Htp Hsx.
  destruct (@has_shape_sum_axis0 _ B [] Hml) as (sml & Eml & _).
  destruct (@has_shape_sum_axis0 _ B [K] Hip) as (sip & Eip & Sip).
  destruct (@has_shape_sum_axis0 _ B [K; K] Htp) as (stp & Etp & Stp).
  destruct (@has_shape_sum_axis0 _ B [C] Hsx) as (ssx & Esx & Ssx).
  destruct (@has_shape_posterior_mode 1.0001 sip [] K Sip HK2)
    as (v1 & E1 & S1).
  destruct (@has_shape_posterior_mode 1.0001 stp [K] K Stp HK2)
    as (v2 & E2 & S2).
  destruct (@has_shape_posterior_mode 1.1 ssx [] C Ssx HC2)
    as (v3 & E3 & S3).
  cbn [app] in S3.
  exists (assigned3 self v1 v2 v3). split.
  { pose proof (m_step_cases batch_emissions batch_posteriors kwargs self) as H.
    unfold tree_map in H. rewrite Eml, Eip, Etp, Esx in H.
    cbn [rbind initial_probs trans_probs sum_x] in H.
    rewrite E1, E2, E3 in H. exact H. }
  unfold num_emissions, num_classes, emission_probs, shape_at.
  cbn [assigned3 _emission_probs set_value value].
  rewrite (proj1 S3). repeat split.
Qed.

Lemma m_step_can_lose_the_emission_axes_witness :
  has_shape (sum_x Inputs.stats_flat) [1; 3]%nat /\
  exists self',
    m_step Instances.batch Inputs.stats_flat tt Instances.model
    = (self', Ok tt) /\
    num_classes self' = Err IndexError.
Proof.
  split; [split; reflexivity|].
  destruct (@m_step_can_lose_the_emission_axes unit Instances.batch
              Inputs.stats_flat tt Instances.model 1 2 3)
    as (self' & Hm & _ & _ & Hc);
    try (split; reflexivity); try lia.
  exists self'. split; assumption.
Defined.

(** ** The E-step: observations that are not class indices, bounds, and
    empty sequences *)

Section EStepMore.

Lemma sum_upto_indicator_out (C : nat) (x : Z) :
  ~ (0 <= x < Z.of_nat C)%Z ->
  sum_upto C (fun i => if (x =? Z.of_nat i)%Z then 1 else 0) == 0.
Proof.
  intros Hx.
  transitivity (sum_upto C (fun _ => 0)).
  - apply sum_upto_ext_Qeq. intros i Hi.
    destruct (Z.eqb_spec x (Z.of_nat i)); [lia|reflexivity].
  - rewrite sum_upto_const. ring.
Qed.

(** An observation matches one class if it is a class index and none
    otherwise. *)
Lemma sum_upto_indicator_any (C : nat) (x : Z) :
  sum_upto C (fun i => if (x =? Z.of_nat i)%Z then 1 else 0)
  == if ((0 <=? x) && (x <? Z.of_nat C))%Z then 1 else 0.
Proof.
  destruct (Z.leb_spec 0 x); destruct (Z.ltb_spec x (Z.of_nat C)); cbn [andb].
  - apply sum_upto_indicator. lia.
  - apply sum_upto_indicator_out. lia.
  - apply sum_upto_indicator_out. lia.
  - apply sum_upto_indicator_out. lia.
Qed.

Lemma expected_counts_in_range (T K C : nat) (gamma : nat -> nat -> Q)
    (obs : nat -> Z) :
  (forall t, (t < T)%nat -> sum_upto K (fun k => gamma t k) == 1) ->
  sum_upto K (fun k => sum_upto C (fun i => sum_upto T (fun t =>
    gamma t k * (if (obs t =? Z.of_nat i)%Z then 1 else 0))))
  == in_range_count T C obs.
Proof.
  intros Hg. unfold in_range_count.
  transitivity
    (sum_upto K (fun k => sum_upto T (fun t =>
       gamma t k
       * (if ((0 <=? obs t) && (obs t <? Z.of_nat C))%Z then 1 else 0)))).
  - apply sum_upto_ext_Qeq. intros k _.
    rewrite sum_upto_exchange. apply sum_upto_ext_Qeq. intros t Ht.
    now rewrite sum_upto_scale, sum_upto_indicator_any.
  - rewrite sum_upto_exchange. apply sum_upto_ext_Qeq. intros t Ht.
    transitivity
      ((if ((0 <=? obs t) && (obs t <? Z.of_nat C))%Z then 1 else 0)
       * sum_upto K (fun k => gamma t k)).
    + rewrite <- sum_upto_scale. apply sum_upto_ext_Qeq. intros k _. ring.
    + rewrite (Hg t Ht). ring.
Qed.

Lemma sum_upto_le (n : nat) (f g : nat -> Q) :
  (forall j, (j < n)%nat -> f j <= g j) -> sum_upto n f <= sum_upto n g.
Proof.
  induction n as [|n IH]; intros H; [apply Qle_refl|].
  rewrite !sum_upto_S. apply Qplus_le_compat; [apply IH|apply H]; auto.
Qed.

End EStepMore.

(** X8.  [e_step] does not check that the observations are class indices:
    in an array of 32-bit integers, an observation outside [0, C) raises no
    error and counts for no class.  When every row of the smoothed
    probabilities sums to one, the [sum_x] statistic of a sequence and
    channel, summed over states and classes, is the number of timesteps
    whose observation lies in [0, C). *)
Theorem e_step_counts_class_indices_only
    (base : BaseHMM) (inference : HMMInference)
    (base_ok : BaseHMM_contract base)
    (inference_ok : HMMInference_contract inference)
    (m : CategoricalHMM) (K D C : nat) (batch : ndarray Z) (B T : nat) :
  model_dims m K D C -> has_shape batch [B; T; D] -> int32_values batch ->
  (0 < T)%nat ->
  (forall b ll p, (b < B)%nat ->
     _conditional_logliks m (slice0 batch b) = Ok ll ->
     hmm_smoother (value (_initial_probs m))
       (value (_transition_matrix m)) ll = Ok p ->
     forall t, (t < T)%nat ->
       sum_upto K (fun k => get (posterior_smoothed_probs p) [t; k]) == 1) ->
  exists out, e_step m batch = Ok out /\
    forall b d, (b < B)%nat -> (d < D)%nat ->
      sum_upto K (fun k => sum_upto C (fun i => get (sum_x out) [b; k; d; i]))
      == in_range_count T C (fun t => getZ batch [b; t; d]).
Proof.
  intros Hm Hb _ HT Hrows.
  destruct (e_step_entries base_ok inference_ok Hm Hb HT) as (out & Eout & H).
  exists out. split; [exact Eout|]. intros b d Hlt Hd.
  destruct (H b Hlt) as (ll & p & Ell & Ep & _ & _ & Hent).
  transitivity
    (sum_upto K (fun k => sum_upto C (fun i =>
       expected_count T (posterior_smoothed_probs p)
         (fun t => getZ batch [b; t; d]) k i))).
  - apply sum_upto_ext_Qeq. intros k Hk.
    apply sum_upto_ext_Qeq. intros i Hi.
    now rewrite (Hent k d i Hk Hd Hi).
  - unfold expected_count.
    apply (@expected_counts_in_range T K C
             (fun t k => get (posterior_smoothed_probs p) [t; k])
             (fun t => getZ batch [b; t; d])).
    intros t Ht. now apply (Hrows b ll p).
Qed.

Lemma e_step_counts_class_indices_only_witness :
  int32_values Inputs.batch_out_of_range /\
  exists out,
    e_step (base := Instances.base) (inference := Instances.inference)
      Instances.model Inputs.batch_out_of_range = Ok out /\
    sum_upto 2 (fun k => sum_upto 3 (fun i =>
      get (sum_x out) [0; k; 0; i]%nat)) == 1.
Proof.
  assert (Hint : int32_values Inputs.batch_out_of_range).
  { unfold int32_values. cbn [data Inputs.batch_out_of_range].
    repeat (apply Forall_cons; [lia|]). apply Forall_nil. }
  split; [exact Hint|].
  destruct (@e_step_counts_class_indices_only
              Instances.base Instances.inference
              base_meets_contract inference_meets_contract
              Instances.model 2 1 3 Inputs.batch_out_of_range 1 2
              model_dims_example)
    as (out & Hout & Htotal); [split; reflexivity | exact Hint | lia | |].
  - intros b ll p Hb Hll Hp t Ht.
    cbn in Hll. injection Hll as <-. cbn in Hp. injection Hp as <-.
    destruct t as [|[|t]]; [reflexivity | reflexivity | lia].
  - exists out. split; [exact Hout|].
    rewrite (Htotal 0%nat 0%nat) by lia. reflexivity.
Defined.

(** X9.  When the smoothed probabilities of a sequence are non-negative,
    every entry of its [sum_x] statistic lies between zero and the expected
    number of timesteps spent in that state. *)
Theorem e_step_sum_x_bounds
    (base : BaseHMM) (inference : HMMInference)
    (base_ok : BaseHMM_contract base)
    (inference_ok : HMMInference_contract inference)
    (m : CategoricalHMM) (K D C : nat) (batch : ndarray Z) (B T : nat) :
  model_dims m K D C -> has_shape batch [B; T; D] -> (0 < T)%nat ->
  (forall b ll p, (b < B)%nat ->
     _conditional_logliks m (slice0 batch b) = Ok ll ->
     hmm_smoother (value (_initial_probs m))
       (value (_transition_matrix m)) ll = Ok p ->
     nonneg (posterior_smoothed_probs p)) ->
  exists out, e_step m batch = Ok out /\
    forall b, (b < B)%nat ->
      exists ll p,
        _conditional_logliks m (slice0 batch b) = Ok ll /\
        hmm_smoother (value (_initial_probs m))
          (value (_transition_matrix m)) ll = Ok p /\
        forall k d i, (k < K)%nat -> (d < D)%nat -> (i < C)%nat ->
          0 <= get (sum_x out) [b; k; d; i] /\
          get (sum_x out) [b; k; d; i]
          <= expected_occupancy T (posterior_smoothed_probs p) k.
Proof.
  intros Hm Hb HT Hnn.
  destruct (e_step_entries base_ok inference_ok Hm Hb HT) as (out & Eout & H).
  exists out. split; [exact Eout|]. intros b Hlt.
  destruct (H b Hlt) as (ll & p & Ell & Ep & _ & _ & Hent).
  exists ll, p. repeat (split; [assumption|]).
  intros k d i Hk Hd Hi. rewrite (Hent k d i Hk Hd Hi).
  assert (Hg : forall t, 0 <= get (posterior_smoothed_probs p) [t; k])
    by (intros t; apply nth_nonneg, (Hnn b ll p Hlt Ell Ep)).
  unfold expected_count, expected_occupancy. split.
  - apply sum_upto_nonneg. intros t. specialize (Hg t).
    destruct (getZ batch [b; t; d] =? Z.of_nat i)%Z; lra.
  - apply sum_upto_le. intros t _. specialize (Hg t).
    destruct (getZ batch [b; t; d] =? Z.of_nat i)%Z; lra.
Qed.

Lemma e_step_sum_x_bounds_witness :
  has_shape Instances.batch [2; 2; 1]%nat /\
  exists out,
    e_step (base := Instances.base) (inference := Instances.inference)
      Instances.model Instances.batch = Ok out /\
    0 <= get (sum_x out) [1; 0; 0; 1]%nat.
Proof.
  split; [exact has_shape_batch_example|].
  destruct (@e_step_sum_x_bounds
              Instances.base Instances.inference
              base_meets_contract inference_meets_contract
              Instances.model 2 1 3 Instances.batch 2 2
              model_dims_example has_shape_batch_example)
    as (out & Hout & Hbounds); [lia | |].
  - intros b ll p Hb Hll Hp.
    cbn in Hll. injection Hll as <-. cbn in Hp. injection Hp as <-.
    unfold nonneg; cbn. forall_entries.
  - exists out. split; [exact Hout|].
    destruct (Hbounds 1%nat) as (ll & p & _ & _ & Hb); [lia|].
    apply (Hb 0%nat 0%nat 1%nat); lia.
Defined.

(** X10.  [e_step] never returns statistics for a batch of sequences of
    length zero.  When the smoother returns one row of smoothed
    probabilities per timestep, its result for such a sequence has no first
    row, and reading it for the initial-state statistic raises
    [IndexError]; an error of [_conditional_logliks] or of the smoother
    itself is passed on.  This holds for every batch size, the function
    being traced before it is applied. *)
Theorem e_step_rejects_empty_sequences
    (base : BaseHMM) (inference : HMMInference)
    (m : CategoricalHMM) (D : nat) (batch : ndarray Z) (B : nat) :
  shape batch = [B; 0%nat; D] ->
  (forall x ll p, has_shape x [0%nat; D] ->
     _conditional_logliks m x = Ok ll ->
     hmm_smoother (value (_initial_probs m))
       (value (_transition_matrix m)) ll = Ok p ->
     exists K, shape (posterior_smoothed_probs p) = [0%nat; K]) ->
  exists e, e_step m batch = Err e /\
    (forall ll p,
       _conditional_logliks m (Array [0%nat; D] []) = Ok ll ->
       hmm_smoother (value (_initial_probs m))
         (value (_transition_matrix m)) ll = Ok p ->
       e = IndexError).
Proof.
  intros Hbs Hrows. unfold e_step, vmap. rewrite Hbs.
  assert (E0 : repeat 0%Z (numel [0%nat; D]) = []) by reflexivity.
  rewrite E0.
  assert (Hx : has_shape (Array [0%nat; D] (@nil Z)) [0%nat; D])
    by (split; reflexivity).
  unfold _single_e_step.
  destruct (_conditional_logliks m (Array [0%nat; D] [])) as [ll|e] eqn:Ell;
    cbn [rbind]; [|exists e; split; [reflexivity|discriminate]].
  destruct (hmm_smoother _ _ ll) as [p|e] eqn:Ep; cbn [rbind].
  - destruct (Hrows _ ll p Hx Ell Ep) as (K & Hs).
    unfold getitem0. rewrite Hs. cbn [Nat.eqb rbind].
    exists IndexError. split; reflexivity.
  - exists e. split; [reflexivity|].
    intros ll' p' Hll' Hp'. injection Hll' as <-.
    rewrite Ep in Hp'. discriminate.
Qed.

Lemma e_step_rejects_empty_sequences_witness :
  shape Inputs.batch_of_empty_sequences = [2; 0; 1]%nat /\
  exists e,
    e_step (base := Instances.base) (inference := Instances.inference)
      Instances.model Inputs.batch_of_empty_sequences = Err e.
Proof.
  split; [reflexivity|].
  destruct (@e_step_rejects_empty_sequences Instances.base Instances.inference
              Instances.model 1 Inputs.batch_of_empty_sequences 2 eq_refl)
    as (e & He & _).
  - intros x ll p Hx Ell Ep.
    destruct (@conditional_logliks_dims _ base_meets_contract
                Instances.model 2 1 3 x 0 model_dims_example Hx)
      as (ll' & Ell' & Hll).
    rewrite Ell in Ell'. injection Ell' as <-.
    destruct model_dims_example as (Hip & Htm & _).
    destruct (@hmm_smoother_dims _ inference_meets_contract _ _ ll 2 0
                Hip Htm Hll) as (p' & Ep' & [Hsm _] & _).
    rewrite Ep in Ep'. injection Ep' as <-.
    exists 2%nat. exact Hsm.
  - exists e. exact He.
Defined.

(** ** One EM iteration *)

Section Iteration.







Context {base : BaseHMM} {inference : HMMInference}.
Context (base_ok : BaseHMM_contract base).
Context (inference_ok : HMMInference_contract inference).








End Iteration.

Section IterationTheorems.

Context {base : BaseHMM} {inference : HMMInference}.
Context (base_ok : BaseHMM_contract base).
Context (inference_ok : HMMInference_contract inference).



End IterationTheorems.


